(** * camera-trap-classifier: dataset inventory and training configuration

    A shallow embedding of [data_processing/data_inventory.py] (class
    [DatasetInventory]) and of the configuration, finalisation and prediction
    steps of [camera_trap_classifier/train.py] ([main]), with the properties
    of the specification stated and settled against them.

    Python dictionaries keep insertion order and [log_stats] reports in that
    order, so the inventory and the statistics are association lists with
    unique keys ([PyDict]); the [yaml] configuration, whose order is never
    observed, is a [gmap].  Methods run in a state-and-exception monad: the
    state survives a raised exception, as the object does in Python. *)

From Stdlib Require Import ZArith QArith Qround Lia.
From stdpp Require Import base option list strings pretty gmap sorting.

Set Default Proof Using "Type".
Open Scope string_scope.
Open Scope list_scope.
Open Scope nat_scope.

(** ** Insertion-ordered dictionaries *)

Module PyDict.

Definition odict (V : Type) : Type := list (string * V).

Section ops.
Context {V : Type}.
Implicit Types (d : odict V) (k : string) (v : V).

(** [d.get(k)]: the value of the entry with key [k], if there is one. *)
Fixpoint get d k : option V :=
  match d with
  | [] => None
  | (k', v) :: d' => if decide (k' = k) then Some v else get d' k
  end.

(** [d[k] = v]: overwrites in place, or appends a new last entry. *)
Fixpoint set d k v : odict V :=
  match d with
  | [] => [(k, v)]
  | (k', v') :: d' =>
      if decide (k' = k) then (k, v) :: d' else (k', v') :: set d' k v
  end.

(** [d.pop(k, None)]: drops the entry with key [k], if there is one. *)
Fixpoint pop d k : odict V :=
  match d with
  | [] => []
  | (k', v') :: d' =>
      if decide (k' = k) then d' else (k', v') :: pop d' k
  end.

Definition keys d : list string := d.*1.
Definition values d : list V := d.*2.

(** [k in d] *)
Definition contains d k : bool := bool_decide (k ∈ keys d).

(** The invariant of a Python dictionary: no key occurs twice. *)
Definition wf d : Prop := NoDup (keys d).
End ops.

End PyDict.

Import PyDict.

(** ** Exceptions and the method monad *)

Inductive exn : Type :=
  | ValueError
  | AttributeError
  | TypeError
  | KeyError
  | IOError
  | ZeroDivisionError.

Inductive outcome (A : Type) : Type :=
  | Return (a : A)
  | Raise (e : exn).
Arguments Return {A} a.
Arguments Raise {A} e.

(** A computation over a state [S]: it returns or raises, and in both cases
    leaves a state behind. *)
Definition M (S A : Type) : Type := S → outcome A * S.

Definition ret {S A} (a : A) : M S A := λ s, (Return a, s).
Definition raise {S A} (e : exn) : M S A := λ s, (Raise e, s).
Definition bind {S A B} (m : M S A) (k : A → M S B) : M S B :=
  λ s, match m s with
       | (Return a, s') => k a s'
       | (Raise e, s') => (Raise e, s')
       end.
Definition gets {S A} (f : S → A) : M S A := λ s, (Return (f s), s).
Definition modify {S} (f : S → S) : M S unit := λ s, (Return tt, f s).

Notation "'do' x <- m ; k" := (bind m (λ x, k))
  (at level 10, x name, m at level 100, k at level 200,
   format "'[v' 'do'  x  <-  m ; '/' k ']'").
Notation "'run' m ; k" := (bind m (λ _, k))
  (at level 10, m at level 100, k at level 200,
   format "'[v' 'run'  m ; '/' k ']'").

(** [for x in l: acc = body(acc, x)] *)
Fixpoint for_each {S A B} (l : list A) (body : B → A → M S B) (acc : B)
    : M S B :=
  match l with
  | [] => ret acc
  | x :: l' => do acc' <- body acc x; for_each l' body acc'
  end.

(** ** The inventory and its environment *)

(** A record of the inventory: its labels, a dictionary from label type to the
    list of label values, and the source data the inventory only carries
    along. *)
Record record : Type := Rec {
  labels : odict (list string);
  meta_data : odict string;
}.

(** The documents [json.dump] writes. *)
#[warnings="-register-all"]
Inductive json : Type :=
  | JStr (s : string)
  | JArr (l : list json)
  | JObj (l : list (string * json)).

Definition record_to_json (r : record) : json :=
  JObj [("labels", JObj (prod_map id (λ ls, JArr (JStr <$> ls)) <$> labels r));
        ("meta_data", JObj (prod_map id JStr <$> meta_data r))].

Definition inventory_to_json (inv : odict record) : json :=
  JObj (prod_map id record_to_json <$> inv).

(** What [logging] receives. The percentage that closes a statistics line is
    a rounded float computed from the count and the total of the line. *)
Inductive level : Type := INFO | WARNING.

Inductive message : Type :=
  | InventorySaved (json_path : string)
  | CantExport
  | LabelStat (label_type label : string) (count total_counts : nat)
  | MultipleLabels (label_type : string) (n_records : nat).

(** The state the methods of [DatasetInventory] run in: the attribute
    [self.data_inventory] ([None] until [create_from_source] has run), the
    log, the files written, the paths [open(_, 'w')] accepts, and the
    numbers the random generator will answer [randbelow] with. The attribute
    [self.label_handler] is read by none of the methods below;
    [create_from_source] itself needs the importer and the label handler,
    which are other modules, and is left out: an inventory is created when
    [data_inventory] is [Some _]. *)
Record state : Type := State {
  data_inventory : option (odict record);
  logging : list (level * message);
  files : gmap string json;
  writable : string → bool;
  random : nat → nat;
}.

Definition set_data_inventory (inv : option (odict record)) (s : state)
    : state :=
  State inv (logging s) (files s) (writable s) (random s).

Definition log_record (l : level) (m : message) : M state unit :=
  modify (λ s, State (data_inventory s) (logging s ++ [(l, m)]) (files s)
                     (writable s) (random s)).

(** [with open(path, 'w') as fp: json.dump(doc, fp)] *)
Definition write_json (path : string) (doc : json) : M state unit :=
  λ s, if writable s path
       then (Return tt, State (data_inventory s) (logging s)
                              (<[path := doc]> (files s)) (writable s)
                              (random s))
       else (Raise IOError, s).

(** An attribute or method of [self.data_inventory]: [None] has none. *)
Definition inventory_attr : M state (odict record) :=
  λ s, match data_inventory s with
       | Some inv => (Return inv, s)
       | None => (Raise AttributeError, s)
       end.

(** [self.data_inventory[record_id]]: [None] is not subscriptable. *)
Definition inventory_item (record_id : string) : M state record :=
  λ s, match data_inventory s with
       | Some inv =>
           match get inv record_id with
           | Some r => (Return r, s)
           | None => (Raise KeyError, s)
           end
       | None => (Raise TypeError, s)
       end.

(** *** [random.sample] *)

(** [k] draws without replacement: each takes the element at a random index
    of what is left of the population. *)
Fixpoint draw {A} (pool : list A) (k : nat) (rand : nat → nat) : list A :=
  match k with
  | 0 => []
  | S k' =>
      let j := rand 0 `mod` length pool in
      match pool !! j with
      | Some x => x :: draw (delete j pool) k' (λ i, rand (S i))
      | None => []
      end
  end.

(** [random.sample(population, k)]: a [ValueError] when the sample is larger
    than the population or is negative. *)
Definition random_sample (population : list string) (k : Z)
    : M state (list string) :=
  λ s, if bool_decide (0 ≤ k ≤ Z.of_nat (length population))%Z
       then (Return (draw population (Z.to_nat k) (random s)),
             State (data_inventory s) (logging s) (files s) (writable s)
                   (λ i, random s (Z.to_nat k + i)))
       else (Raise ValueError, s).

(** [int(x)]: truncation towards zero. The fraction [p_keep] is an exact
    rational, as a Python [int] or [Fraction] is. *)
Definition py_int (x : Q) : Z := (Qnum x ÷ Z.pos (Qden x))%Z.

(** *** The methods of [DatasetInventory] *)

(** [__init__] (lines 14-16) *)
Definition init (s : state) : state := set_data_inventory None s.

(** [randomly_remove_samples_to_percent] (lines 18-32) *)
Definition randomly_remove_samples_to_percent (p_keep : Q) : M state unit :=
  if negb (Qle_bool p_keep 1) then raise ValueError else
  do inv <- inventory_attr;
  let all_ids := keys inv in
  let n_total := length all_ids in
  let n_choices := py_int (inject_Z (Z.of_nat n_total) * p_keep) in
  do choices <- random_sample all_ids n_choices;
  do new_data_inv <-
    for_each choices
      (λ new_data_inv id,
         do r <- inventory_item id; ret (set new_data_inv id r))
      [];
  modify (set_data_inventory (Some new_data_inv)).

(** The getters (lines 34-44) *)
Definition get_all_record_ids : M state (list string) :=
  do inv <- inventory_attr; ret (keys inv).

Definition get_record_id_data (record_id : string) : M state record :=
  inventory_item record_id.

Definition get_number_of_records : M state nat :=
  do inv <- inventory_attr; ret (length (keys inv)).

(** [remove_record] (lines 46-48): [self.data_inventory.pop(id, None)] *)
Definition remove_record (id_to_remove : string) : M state unit :=
  do inv <- inventory_attr;
  modify (set_data_inventory (Some (pop inv id_to_remove))).

(** [export_to_json] (lines 57-67) *)
Definition export_to_json (json_path : string) : M state unit :=
  do inv <- gets data_inventory;
  match inv with
  | Some inv =>
      run write_json json_path (inventory_to_json inv);
      log_record INFO (InventorySaved json_path)
  | None => log_record WARNING CantExport
  end.

(** *** [log_stats] *)

(** The two dictionaries of [log_stats]: per label type the count of each
    label, and per label type the number of records with several labels. *)
Record stats : Type := Stats {
  label_stats : odict (odict nat);
  label_type_stats : odict nat;
}.

(** [if label not in d: d[label] = 0], then [d[label] += 1] (lines 86-89).
    The key is there when [d[label]] is read ([count_label_reads_present]),
    so the default stands for a [KeyError] that cannot be raised. *)
Definition count_label (d : odict nat) (label : string) : odict nat :=
  let d := if contains d label then d else set d label 0 in
  set d label (default 0 (get d label) + 1).

(** The body of the loop over [v['labels'].items()] (lines 77-89). The two
    dictionaries get a new label type together, so here too every key is
    there when it is read ([count_labels_step]). *)
Definition count_labels (st : stats) (entry : string * list string) : stats :=
  let '(label_type, label_list) := entry in
  let st :=
    if contains (label_stats st) label_type then st
    else Stats (set (label_stats st) label_type [])
               (set (label_type_stats st) label_type 0) in
  let st :=
    if bool_decide (1 < length label_list)
    then Stats (label_stats st)
               (set (label_type_stats st) label_type
                  (default 0 (get (label_type_stats st) label_type) + 1))
    else st in
  foldl (λ st label,
           Stats (set (label_stats st) label_type
                    (count_label
                       (default [] (get (label_stats st) label_type)) label))
                 (label_type_stats st))
        st label_list.

(** The loop over [self.data_inventory.items()] (lines 73-89). *)
Definition collect_stats (inv : odict record) : stats :=
  foldl (λ st kv, foldl count_labels st (labels kv.2)) (Stats [] []) inv.

(** [sorted(l, reverse=True, key=key)]: descending, and stable, so elements
    with equal keys keep the order they have in [l]. *)
Fixpoint insert_reverse {A} (key : A → nat) (x : A) (l : list A) : list A :=
  match l with
  | [] => [x]
  | y :: l' =>
      if bool_decide (key x < key y) then y :: insert_reverse key x l'
      else x :: y :: l'
  end.

Definition sorted_reverse {A} (key : A → nat) (l : list A) : list A :=
  foldr (insert_reverse key) [] l.

(** The lines of one label type (lines 92-106). The percentage divides by
    [total_counts]. *)
Definition log_label_stats (label_type : string) (labels : odict nat)
    : M state unit :=
  let label_list := keys labels in
  let count_list := values labels in
  let total_counts := sum_list count_list in
  let sort_index :=
    sorted_reverse (λ k, count_list !!! k) (seq 0 (length count_list)) in
  for_each sort_index
    (λ _ idx,
       if bool_decide (total_counts = 0) then raise ZeroDivisionError
       else log_record INFO
              (LabelStat label_type (label_list !!! idx) (count_list !!! idx)
                 total_counts))
    tt.

(** [log_stats] (lines 69-116) *)
Definition log_stats : M state unit :=
  do inv <- inventory_attr;
  let st := collect_stats inv in
  run for_each (label_stats st)
        (λ _ kv, log_label_stats kv.1 kv.2) tt;
  for_each (label_type_stats st)
    (λ _ kv, log_record INFO (MultipleLabels kv.1 kv.2)) tt.

(** ** [train.py]: configuration, best model and test predictions *)

(** The values of the command line and of [config.yaml]. *)
#[warnings="-register-all"]
Inductive pyval : Type :=
  | PNone
  | PBool (b : bool)
  | PInt (z : Z)
  | PFloat (q : Q)
  | PStr (s : string)
  | PList (l : list pyval).

Definition is_none (v : pyval) : bool :=
  match v with PNone => true | _ => false end.

(** [v == s] for a string literal [s] *)
Definition eq_str (v : pyval) (s : string) : bool :=
  match v with PStr s' => bool_decide (s' = s) | _ => false end.

(** [args = vars(parser.parse_args())] holds what the command line gave; an
    option of the parser that was not given reads as its default, which is
    [None] for [-test_tfr_path] and for each option of [to_overwrite]. *)
Definition args_item (args : gmap string pyval) (k : string) : pyval :=
  default PNone (args !! k).

Inductive run_message : Type :=
  | DisablingColorAugmentation
  | SavingBestModel
  | StartingToPredict
  | FinishedPredicting (pred_output_json : string).

Section train.
(** What lies outside [main]: the disk and the loaded model. *)
Context {world : Type}.

(** The state of a run: what [logger.info] received, and the world. *)
Definition run_state : Type := list run_message * world.

Definition logger_info (m : run_message) : M run_state unit :=
  modify (λ s, (s.1 ++ [m], s.2)).

(** [d[k]] *)
Definition getitem (d : gmap string pyval) (k : string)
    : M run_state pyval :=
  match d !! k with Some v => ret v | None => raise KeyError end.

(** [len(v)] *)
Definition py_len (v : pyval) : M run_state nat :=
  match v with
  | PStr s => ret (String.length s)
  | PList l => ret (length l)
  | _ => raise TypeError
  end.

Definition to_overwrite : list string :=
  ["color_augmentation"; "preserve_aspect_ratio"; "crop_factor";
   "zoom_factor"; "rotate_by_angle"; "randomly_flip_horizontally";
   "image_choice_for_sets"; "output_width"; "output_height"].

(** [for overwrite in to_overwrite: if args[overwrite] is not None: ...]
    (lines 295-302 of [train.py]) *)
Definition overwrite_parameters (args image_processing : gmap string pyval)
    : gmap string pyval :=
  foldl (λ image_processing overwrite,
           if is_none (args_item args overwrite) then image_processing
           else <[overwrite := args_item args overwrite]> image_processing)
        image_processing to_overwrite.

(** [{**a, **b}]: the entries of [b] replace those of [a]. *)
Definition dict_unpack (a b : gmap string pyval) : gmap string pyval :=
  b ∪ a.

(** The image processing options before the grayscale rule (lines
    288-304): [image_processing] is the section of [config.yaml] and
    [image_processing_model] that of the model. *)
Definition merge_image_processing
    (image_processing image_processing_model args : gmap string pyval)
    : gmap string pyval :=
  let image_processing := overwrite_parameters args image_processing in
  dict_unpack image_processing_model image_processing.

(** "disable color_augmentation for grayscale_stacking" (lines 306-312) *)
Definition disable_color_augmentation (image_processing : gmap string pyval)
    : M run_state (gmap string pyval) :=
  do choice <- getitem image_processing "image_choice_for_sets";
  if eq_str choice "grayscale_stacking" then
    do augmentation <- getitem image_processing "color_augmentation";
    if negb (is_none augmentation) then
      let image_processing :=
        <["color_augmentation" := PNone]> image_processing in
      run logger_info DisablingColorAugmentation;
      ret image_processing
    else ret image_processing
  else ret image_processing.

Definition configure_image_processing
    (image_processing image_processing_model args : gmap string pyval)
    : M run_state (gmap string pyval) :=
  disable_color_augmentation
    (merge_image_processing image_processing image_processing_model args).

(** The collaborators of the last two steps of [main], which are not part
    of it: the copy of the best model and of the [.json] files, and the
    prediction on the test files (reader, [Predictor] and export), which
    returns the path of the export. *)
Context (copy_models_and_config_files : gmap string pyval → M run_state unit)
        (predict_test_data : gmap string pyval → M run_state string).

(** "SAVE BEST MODEL" and "PREDICT AND EXPORT TEST DATA" (lines 559-620) *)
Definition save_best_model_and_predict (args : gmap string pyval)
    : M run_state unit :=
  run logger_info SavingBestModel;
  run copy_models_and_config_files args;
  do n <- py_len (args_item args "test_tfr_path");
  if bool_decide (0 < n) then
    run logger_info StartingToPredict;
    do pred_output_json <- predict_test_data args;
    logger_info (FinishedPredicting pred_output_json)
  else ret tt.
End train.

(** The value the command line gives for an option of [to_overwrite], if it
    gives one. *)
Definition user_override (args : gmap string pyval) (k : string)
    : option pyval :=
  if decide (k ∈ to_overwrite) then
    if is_none (args_item args k) then None else Some (args_item args k)
  else None.

(** ** What the statistics are measured against *)

(** The label lists of type [label_type] on the records that carry the type,
    in the order of the inventory. *)
Definition label_lists (label_type : string) (inv : odict record)
    : list (list string) :=
  omap (λ kv, get (labels kv.2) label_type) inv.

(** The labels of [l] in the order they are first met. *)
Fixpoint first_seen (l : list string) : list string :=
  match l with
  | [] => []
  | x :: l' => x :: filter (λ y, y ≠ x) (first_seen l')
  end.

Definition occurrences (x : string) (l : list string) : nat :=
  length (filter (λ y, y = x) l).

(** Every label of [l] with the number of times it occurs, in the order the
    labels are first met. *)
Definition counts_of (l : list string) : odict nat :=
  (λ x, (x, occurrences x l)) <$> first_seen l.

(** The statistics lines of one label type among logged records, as pairs
    of a label and its count, in the order they were logged. *)
Definition label_lines (label_type : string) (logged : list (level * message))
    : list (string * nat) :=
  omap (λ e, match e with
             | (INFO, LabelStat t label count _) =>
                 if decide (t = label_type) then Some (label, count) else None
             | _ => None
             end) logged.

(** The state after more records were logged. *)
Definition add_logging (new : list (level * message)) (s : state) : state :=
  State (data_inventory s) (logging s ++ new) (files s) (writable s)
        (random s).

(** The entries [log_stats] visits, record after record, and among entries
    the label lists of one type. *)
Definition entries (inv : odict record) : list (string * list string) :=
  mbind (M := list) (λ kv : string * record, labels kv.2) inv.

Definition lists_of (label_type : string) (E : list (string * list string))
    : list (list string) :=
  (filter (λ e, e.1 = label_type) E).*2.

(** The records of the inventory are dictionaries too. *)
Definition wf_labels (inv : odict record) : Prop :=
  Forall (λ kv, wf (labels kv.2)) inv.

(** What [log_stats] logs for the dictionaries it has filled: per label type
    a line for each label, and then a line for each label type. *)
Definition stat_lines (label_type : string) (d : odict nat)
    : list (level * message) :=
  (λ lc, (INFO, LabelStat label_type lc.1 lc.2 (sum_list (values d)))) <$>
    sorted_reverse snd d.

Definition stat_log (st : stats) : list (level * message) :=
  mbind (M := list) (λ kv : string * odict nat, stat_lines kv.1 kv.2)
    (label_stats st) ++
  ((λ kv, (INFO, MultipleLabels kv.1 kv.2)) <$> label_type_stats st).

(** ** Example inventories *)

Definition one_record : odict record :=
  [("img_1", Rec [("species", ["cat"])] [("path", "img_1.jpg")])].

Definition three_records : odict record :=
  [("img_1", Rec [("species", ["cat"])] []);
   ("img_2", Rec [("species", ["dog"])] []);
   ("img_3", Rec [("species", ["cat"; "dog"])] [])].

(** Twenty-three records with one species each: ["a"] first, then ["b"], then
    ["c"], and in all five of ["a"], nine of ["b"] and nine of ["c"]. *)
Definition abc_records : odict record :=
  imap (λ i label, ("img_" +:+ pretty i, Rec [("species", [label])] []))
    (["a"; "b"; "c"] ++ replicate 4 "a" ++ replicate 8 "b" ++
     replicate 8 "c").

Definition fresh_state (inv : option (odict record)) : state :=
  State inv [] ∅ (λ _, true) (λ i, i).

(** ** More of [main]: the input shape and the classes of each label *)

Section main_inputs.
Context {world : Type}.

(** [input_shape] (lines 314-315 of [train.py]): the height is read first. *)
Definition input_shape (image_processing : gmap string pyval)
    : M (list run_message * world) (pyval * pyval * Z) :=
  do height <- getitem image_processing "output_height";
  do width <- getitem image_processing "output_width";
  ret (height, width, 3%Z).

(** [['label/' + x for x in output_labels]] (line 319) *)
Definition output_labels_clean (output_labels : list string) : list string :=
  (λ x, "label/" +:+ x) <$> output_labels.

(** [len(set(codes.values()))]: the number of different numeric codes of the
    classes of one label. *)
Definition n_classes (codes : gmap string Z) : nat :=
  size (list_to_set (C := gset Z) (map_to_list codes).*2).

(** The dictionary comprehension of lines 324-326: [class_mapping[o]] raises a
    [KeyError] for a label that the class mapping file does not have. *)
Definition n_classes_per_label_dict
    (class_mapping : gmap string (gmap string Z))
    (output_labels : list string)
    : M (list run_message * world) (gmap string nat) :=
  for_each (zip output_labels (output_labels_clean output_labels))
    (λ d oc,
       match class_mapping !! oc.1 with
       | Some codes => ret (<[oc.2 := n_classes codes]> d)
       | None => raise KeyError
       end)
    ∅.

(** The list comprehension of lines 327-328. *)
Definition n_classes_per_label
    (class_mapping : gmap string (gmap string Z))
    (output_labels : list string)
    : M (list run_message * world) (list nat) :=
  do d <- n_classes_per_label_dict class_mapping output_labels;
  for_each (output_labels_clean output_labels)
    (λ acc x,
       match d !! x with
       | Some n => ret (acc ++ [n])
       | None => raise KeyError
       end)
    [].
End main_inputs.

(** ** What the counts of a label are measured against *)

(** The count [log_stats] holds for a label of a label type, zero when it
    holds none. *)
Definition label_count (inv : odict record) (label_type label : string)
    : nat :=
  default 0
    (get (default [] (get (label_stats (collect_stats inv)) label_type))
       label).

(** The number of times a record carries a label under a label type. *)
Definition record_occurrences (r : record) (label_type label : string)
    : nat :=
  occurrences label (default [] (get (labels r) label_type)).

(** ** List facts used throughout *)

Section list_facts.
Context {A : Type}.

Lemma filter_all (P : A → Prop) `{!∀ x, Decision (P x)} (l : list A) :
  Forall P l → filter P l = l.
Proof.
  induction 1 as [|x l Hx _ IH]; [done|].
  by rewrite filter_cons_True, IH.
Qed.

Lemma filter_none (P : A → Prop) `{!∀ x, Decision (P x)} (l : list A) :
  Forall (λ x, ¬ P x) l → filter P l = [].
Proof.
  induction 1 as [|x l Hx _ IH]; [done|].
  by rewrite filter_cons_False.
Qed.
End list_facts.

(** ** Facts about insertion-ordered dictionaries *)

Section dict_facts.
Context {V : Type}.
Implicit Types (d : odict V) (k : string) (v : V).

Lemma get_None d k : get d k = None ↔ k ∉ keys d.
Proof.
  induction d as [|[k' v'] d IH]; simpl.
  - split; [intros _; apply not_elem_of_nil | done].
  - rewrite not_elem_of_cons. destruct (decide (k' = k)) as [->|Hne].
    + split; [done | intros [? _]; done].
    + rewrite IH. split; [by intros ? | by intros [_ ?]].
Qed.

Lemma get_is_Some d k : is_Some (get d k) ↔ k ∈ keys d.
Proof.
  rewrite <-not_eq_None_Some, get_None.
  split; [apply dec_stable | auto].
Qed.

Lemma elem_get d k v : wf d → (k, v) ∈ d → get d k = Some v.
Proof.
  unfold wf, keys. induction d as [|[k' v'] d IH]; simpl.
  - intros _ ?%elem_of_nil. done.
  - rewrite NoDup_cons. intros [Hk Hd] [[= -> ->]|Hin]%elem_of_cons.
    + by rewrite decide_True.
    + rewrite decide_False; [auto|].
      intros ->. apply Hk. by apply (list_elem_of_fmap_2 fst _ (k, v)).
Qed.

Lemma contains_get d k : contains d k = bool_decide (is_Some (get d k)).
Proof. unfold contains. apply bool_decide_ext. by rewrite get_is_Some. Qed.

Lemma get_set d k v k' :
  get (set d k v) k' = if decide (k = k') then Some v else get d k'.
Proof.
  induction d as [|[k0 v0] d IH]; simpl.
  - done.
  - destruct (decide (k0 = k)) as [->|Hne]; simpl.
    + by destruct (decide (k = k')).
    + rewrite IH. destruct (decide (k0 = k')) as [->|]; [|done].
      by rewrite decide_False.
Qed.

Lemma keys_set d k v :
  keys (set d k v) = if contains d k then keys d else keys d ++ [k].
Proof.
  unfold contains, keys. induction d as [|[k0 v0] d IH]; csimpl; [done|].
  destruct (decide (k0 = k)) as [->|Hne]; csimpl.
  - rewrite bool_decide_true; [done | left].
  - rewrite IH. destruct (decide (k ∈ d.*1)) as [Hin|Hin].
    + rewrite !bool_decide_true; [done | by right | done].
    + rewrite !bool_decide_false; [done | | done].
      rewrite not_elem_of_cons. naive_solver.
Qed.

Lemma wf_set d k v : wf d → wf (set d k v).
Proof.
  unfold wf. rewrite keys_set, contains_get.
  case_bool_decide as Hk; [done|]. intros Hd.
  apply NoDup_app. split_and!; [done | | apply NoDup_singleton].
  intros x Hx ->%list_elem_of_singleton.
  apply Hk, get_is_Some, Hx.
Qed.

Lemma pop_absent d k : k ∉ keys d → pop d k = d.
Proof.
  unfold keys. induction d as [|[k' v'] d IH]; csimpl; [done|].
  rewrite not_elem_of_cons. intros [Hne Hd].
  rewrite decide_False by done. by rewrite IH.
Qed.

Lemma keys_pop d k : wf d → keys (pop d k) = filter (λ k', k' ≠ k) (keys d).
Proof.
  unfold wf, keys. induction d as [|[k' v'] d IH]; csimpl; [done|].
  rewrite NoDup_cons. intros [Hk Hd].
  destruct (decide (k' = k)) as [->|Hne].
  - rewrite filter_cons_False by naive_solver.
    symmetry. apply filter_all, Forall_forall. by intros x Hx ->.
  - rewrite filter_cons_True by done. csimpl. by rewrite IH.
Qed.

Lemma get_pop d k k' :
  wf d → get (pop d k) k' = if decide (k = k') then None else get d k'.
Proof.
  unfold wf, keys. induction d as [|[k0 v0] d IH]; csimpl.
  - by case_decide.
  - rewrite NoDup_cons. intros [Hk Hd].
    destruct (decide (k0 = k)) as [->|Hne].
    + destruct (decide (k = k')) as [<-|]; [|done].
      by apply get_None.
    + csimpl. rewrite IH by done.
      destruct (decide (k0 = k')) as [->|]; [|done].
      by rewrite decide_False.
Qed.
End dict_facts.

(** ** The inventory: membership operations *)

Ltac unfold_M :=
  cbv beta delta [bind ret raise gets modify inventory_attr inventory_item
                  log_record write_json].


Lemma fmap_values_inj {A B} (f : A → B) (d1 d2 : odict A) :
  (∀ x y, f x = f y → x = y) →
  prod_map id f <$> d1 = prod_map id f <$> d2 → d1 = d2.
Proof.
  intros Hf. revert d2.
  induction d1 as [|[k v] d1 IH]; intros [|[k' v'] d2]; csimpl; try done.
  intros [= -> ?%Hf ?]. subst. f_equal. by apply IH.
Qed.

Lemma record_to_json_inj (r1 r2 : record) :
  record_to_json r1 = record_to_json r2 → r1 = r2.
Proof.
  destruct r1 as [l1 m1], r2 as [l2 m2]. unfold record_to_json; simpl.
  intros [= Hl Hm]. f_equal.
  - apply fmap_values_inj in Hl; [done|].
    intros ls ls' [= H]. revert ls' H.
    induction ls as [|x ls IH]; intros [|x' ls']; csimpl; try done.
    intros [= -> ?]. f_equal. by apply IH.
  - apply fmap_values_inj in Hm; [done|]. by intros x y [= ->].
Qed.

Lemma inventory_to_json_inj (inv1 inv2 : odict record) :
  inventory_to_json inv1 = inventory_to_json inv2 → inv1 = inv2.
Proof.
  unfold inventory_to_json. intros [= H].
  apply fmap_values_inj in H; [done|]. apply record_to_json_inj.
Qed.



(** C9. Without an inventory [export_to_json] returns, writes nothing and
    logs a warning; with one, and a path that can be written, it returns with
    the file holding the document of the whole inventory, from which the
    inventory can be read back; a path that cannot be written raises. *)
Theorem export_to_json_spec (s : state) (json_path : string) :
  match data_inventory s with
  | None =>
      export_to_json json_path s =
        (Return tt,
         State None (logging s ++ [(WARNING, CantExport)]) (files s)
           (writable s) (random s))
  | Some inv =>
      if writable s json_path then
        export_to_json json_path s =
          (Return tt,
           State (Some inv) (logging s ++ [(INFO, InventorySaved json_path)])
             (<[json_path := inventory_to_json inv]> (files s))
             (writable s) (random s)) ∧
        (∀ inv', inventory_to_json inv' = inventory_to_json inv → inv' = inv)
      else export_to_json json_path s = (Raise IOError, s)
  end.
Proof.
  unfold export_to_json. unfold_M.
  destruct (data_inventory s) as [inv|] eqn:Hinv; simpl; [|by rewrite Hinv].
  destruct (writable s json_path) eqn:Hw; simpl; [|done].
  rewrite Hinv. split; [done|]. intros inv'. apply inventory_to_json_inj.
Qed.

(** C10. Before [create_from_source] every method but [export_to_json]
    raises and leaves the state as it was: the ones that call a method of
    [self.data_inventory] an [AttributeError], the subscript a [TypeError],
    and the sampling a [ValueError] or an [AttributeError]; [export_to_json]
    returns. *)
Theorem never_created_raises (s : state) (id json_path : string) (p_keep : Q) :
  data_inventory s = None →
  get_all_record_ids s = (Raise AttributeError, s) ∧
  get_record_id_data id s = (Raise TypeError, s) ∧
  get_number_of_records s = (Raise AttributeError, s) ∧
  remove_record id s = (Raise AttributeError, s) ∧
  randomly_remove_samples_to_percent p_keep s =
    (Raise (if Qle_bool p_keep 1 then AttributeError else ValueError), s) ∧
  log_stats s = (Raise AttributeError, s) ∧
  ∃ s', export_to_json json_path s = (Return tt, s').
Proof.
  intros Hinv.
  unfold get_all_record_ids, get_record_id_data, get_number_of_records,
    remove_record, randomly_remove_samples_to_percent, log_stats,
    export_to_json.
  destruct (Qle_bool p_keep 1); unfold_M; simpl; rewrite !Hinv; eauto 10.
Qed.

Lemma never_created_raises_witness :
  let s := fresh_state None in
  get_all_record_ids s = (Raise AttributeError, s) ∧
  get_record_id_data "img_1" s = (Raise TypeError, s) ∧
  get_number_of_records s = (Raise AttributeError, s) ∧
  remove_record "img_1" s = (Raise AttributeError, s) ∧
  randomly_remove_samples_to_percent (1 # 2) s = (Raise AttributeError, s) ∧
  log_stats s = (Raise AttributeError, s) ∧
  ∃ s', export_to_json "inventory.json" s = (Return tt, s').
Proof.
  exact (never_created_raises (fresh_state None)
           "img_1" "inventory.json" (1 # 2) eq_refl).
Defined.

(** X1. A fraction above one raises a [ValueError] and leaves the state as
    it was, with or without an inventory. *)
Lemma fraction_above_one_raises (s : state) (p_keep : Q) :
  (1 < p_keep)%Q →
  randomly_remove_samples_to_percent p_keep s = (Raise ValueError, s).
Proof.
  intros Hp. unfold randomly_remove_samples_to_percent.
  destruct (Qle_bool p_keep 1) eqn:Hle; [|done].
  apply Qle_bool_iff in Hle. by apply Qlt_not_le in Hp.
Qed.

(** C2, where the code departs from it. A fraction above one raises a
    [ValueError] and changes nothing ([fraction_above_one_raises]), but a
    negative fraction passes the test [p_keep <= 1]: when
    [n_total * p_keep] lies above minus one it truncates to a sample of size
    zero, and the call returns with the inventory emptied. *)
Theorem negative_fraction_empties_inventory
    (s : state) (inv : odict record) (p_keep : Q) :
  data_inventory s = Some inv →
  (p_keep < 0)%Q →
  (-1 < inject_Z (Z.of_nat (length (keys inv))) * p_keep)%Q →
  randomly_remove_samples_to_percent p_keep s =
    (Return tt, set_data_inventory (Some []) s).
Proof.
  intros Hinv Hneg Hsmall. unfold randomly_remove_samples_to_percent.
  assert (Qle_bool p_keep 1 = true) as ->.
  { apply Qle_bool_iff, Qlt_le_weak, Qlt_trans with 0%Q; [done|reflexivity]. }
  assert (py_int (inject_Z (Z.of_nat (length (keys inv))) * p_keep) = 0%Z)
    as Hk.
  { unfold py_int. destruct p_keep as [a b]. unfold Qlt in *. simpl in *.
    rewrite Pos2Z.inj_mul in Hsmall.
    set (n := Z.of_nat (length (keys inv))) in *.
    assert (0 ≤ n)%Z by (subst n; lia).
    rewrite <-(Z.opp_involutive (n * a)), Z.quot_opp_l by lia.
    rewrite Z.quot_small; [done|]. nia. }
  simpl. unfold_M. rewrite Hinv. unfold random_sample. rewrite Hk.
  rewrite bool_decide_true by lia. simpl.
  unfold set_data_inventory. done.
Qed.

Lemma negative_fraction_empties_inventory_witness :
  randomly_remove_samples_to_percent (-1 # 2)
    (fresh_state (Some one_record)) =
  (Return tt, fresh_state (Some [])).
Proof.
  apply (negative_fraction_empties_inventory
           (fresh_state (Some one_record)) one_record);
    [reflexivity | reflexivity | reflexivity].
Defined.

(** ** The inventory: sampling *)

Section sampling.
Context {A : Type}.
Implicit Types (pool : list A) (k : nat) (rand : nat → nat).

(** A sample is made of elements of the pool, each used once. *)
Lemma draw_submseteq pool k rand : draw pool k rand ⊆+ pool.
Proof.
  revert pool rand. induction k as [|k IH]; intros pool rand; simpl.
  - apply submseteq_nil_l.
  - destruct (pool !! _) as [x|] eqn:Hx; [|apply submseteq_nil_l].
    trans (x :: delete (rand 0 `mod` length pool) pool).
    + apply submseteq_skip, IH.
    + by rewrite <-delete_Permutation.
Qed.

Lemma length_draw pool k rand :
  k ≤ length pool → length (draw pool k rand) = k.
Proof.
  revert pool rand. induction k as [|k IH]; intros pool rand Hk; simpl.
  - done.
  - destruct (lookup_lt_is_Some_2 pool (rand 0 `mod` length pool)) as [x Hx].
    { apply Nat.mod_upper_bound. lia. }
    rewrite Hx. simpl. rewrite IH; [done|].
    rewrite length_delete by eauto. lia.
Qed.

Lemma NoDup_draw pool k rand : NoDup pool → NoDup (draw pool k rand).
Proof.
  intros Hpool.
  destruct (submseteq_Permutation _ _ (draw_submseteq pool k rand))
    as [rest Hrest].
  rewrite Hrest in Hpool. by apply NoDup_app in Hpool as [? _].
Qed.

Lemma elem_of_draw pool k rand x : x ∈ draw pool k rand → x ∈ pool.
Proof.
  intros Hx.
  destruct (submseteq_Permutation _ _ (draw_submseteq pool k rand))
    as [rest Hrest].
  rewrite Hrest. apply elem_of_app. by left.
Qed.
End sampling.

(** The loop that fills [new_data_inv] never meets a missing key: it
    appends the entries of the chosen ids, in the order of the choices. *)
Lemma copy_choices (inv : odict record) (s : state) (choices : list string)
    (acc : odict record) :
  data_inventory s = Some inv →
  NoDup choices →
  (∀ id, id ∈ choices → id ∈ keys inv ∧ id ∉ keys acc) →
  ∃ new,
    for_each choices
      (λ new_data_inv id,
         do r <- inventory_item id; ret (set new_data_inv id r))
      acc s = (Return new, s) ∧
    keys new = keys acc ++ choices ∧
    ∀ id, get new id = if decide (id ∈ choices) then get inv id
                       else get acc id.
Proof.
  intros Hinv. revert acc.
  induction choices as [|id choices IH]; intros acc Hnd Hin; simpl.
  - exists acc. split_and!; [done | by rewrite app_nil_r | done].
  - apply NoDup_cons in Hnd as [Hid Hnd].
    destruct (Hin id) as [Hid_inv Hid_acc]; [left|].
    apply get_is_Some in Hid_inv as [r Hr].
    unfold_M. rewrite Hinv, Hr.
    destruct (IH (set acc id r)) as (new & Hrun & Hkeys & Hget); [done| |].
    { intros id' Hid'. destruct (Hin id') as [? Hacc]; [by right|].
      split; [done|]. rewrite keys_set, contains_get.
      rewrite bool_decide_false by (by rewrite get_is_Some).
      apply not_elem_of_app. split; [done|].
      rewrite list_elem_of_singleton. by intros ->. }
    exists new. split_and!.
    + exact Hrun.
    + rewrite Hkeys, keys_set, contains_get.
      rewrite bool_decide_false by (by rewrite get_is_Some).
      by rewrite <-app_assoc.
    + intros id'. rewrite Hget, get_set.
      destruct (decide (id = id')) as [<-|Hne].
      * rewrite (decide_False (P := id ∈ choices)) by done.
        rewrite decide_True; [done | left].
      * destruct (decide (id' ∈ choices)) as [Hc|Hc].
        -- rewrite decide_True; [done | by right].
        -- rewrite decide_False; [done|].
           rewrite not_elem_of_cons. by split.
Qed.

Lemma py_int_floor (n : nat) (p : Q) :
  (0 <= p)%Q → (p <= 1)%Q →
  let k := py_int (inject_Z (Z.of_nat n) * p) in
  k = Qfloor (inject_Z (Z.of_nat n) * p) ∧ (0 ≤ k ≤ Z.of_nat n)%Z.
Proof.
  destruct p as [a b]. unfold Qle, py_int, Qfloor. simpl. intros Ha Hb.
  rewrite Z.quot_div_nonneg by nia. split; [done|]. split.
  - apply Z.div_pos; nia.
  - apply Z.div_le_upper_bound; nia.
Qed.



(** ** The image processing configuration *)

Lemma lookup_overwrite (args : gmap string pyval) (l : list string)
    (image_processing : gmap string pyval) (k : string) :
  foldl (λ image_processing overwrite,
           if is_none (args_item args overwrite) then image_processing
           else <[overwrite := args_item args overwrite]> image_processing)
        image_processing l !! k =
  if decide (k ∈ l) then
    if is_none (args_item args k) then image_processing !! k
    else Some (args_item args k)
  else image_processing !! k.
Proof.
  revert image_processing.
  induction l as [|k' l IH]; intros image_processing; simpl.
  - done.
  - rewrite IH. destruct (decide (k' = k)) as [->|Hne].
    + rewrite (decide_True (P := k ∈ k :: l)) by left.
      destruct (is_none (args_item args k)) eqn:Hnone.
      * by destruct (decide (k ∈ l)).
      * rewrite lookup_insert_eq. by destruct (decide (k ∈ l)).
    + assert ((if is_none (args_item args k') then image_processing
               else <[k' := args_item args k']> image_processing) !! k =
              image_processing !! k) as ->.
      { destruct (is_none (args_item args k')); [reflexivity|].
        by rewrite lookup_insert_ne. }
      destruct (decide (k ∈ l)) as [Hl|Hl].
      * rewrite decide_True; [done | by right].
      * rewrite decide_False; [done|]. rewrite not_elem_of_cons. by split.
Qed.

(** C1, as the code has it. An option read from the merged configuration is
    the value the command line gives for it, else the default of
    [config.yaml], else the value of the model: the defaults, once
    overwritten by the command line, are unpacked over the model's values. *)
Theorem merge_image_processing_lookup
    (image_processing image_processing_model args : gmap string pyval)
    (k : string) :
  merge_image_processing image_processing image_processing_model args !! k =
  match user_override args k with
  | Some v => Some v
  | None =>
      match image_processing !! k with
      | Some v => Some v
      | None => image_processing_model !! k
      end
  end.
Proof.
  unfold merge_image_processing, dict_unpack, overwrite_parameters,
    user_override.
  rewrite lookup_union, lookup_overwrite.
  destruct (decide (k ∈ to_overwrite)); [destruct (is_none _)|];
    destruct (image_processing !! k), (image_processing_model !! k);
    reflexivity.
Qed.

(** C1 as the specification words it fails: with a default of
    ["full_randomized"], a model value of ["little"] and nothing on the
    command line, the default is the value in force, not the model's. *)
Lemma model_value_does_not_win :
  let image_processing : gmap string pyval :=
    {["color_augmentation" := PStr "full_randomized"]} in
  let image_processing_model : gmap string pyval :=
    {["color_augmentation" := PStr "little"]} in
  user_override ∅ "color_augmentation" = None ∧
  image_processing_model !! "color_augmentation" = Some (PStr "little") ∧
  merge_image_processing image_processing image_processing_model ∅
    !! "color_augmentation" = Some (PStr "full_randomized").
Proof. by vm_compute. Qed.



(** ** The best model and the test predictions *)

(** C3, where the code departs from it. When the command line gives no
    [-test_tfr_path], [args['test_tfr_path']] is [None] and its [len]
    raises a [TypeError]: the run that has copied its best model ends in an
    exception instead of returning, in the state the copy left. *)
Theorem no_test_path_raises {world : Type}
    (copy_models_and_config_files :
       gmap string pyval → M (list run_message * world) unit)
    (predict_test_data :
       gmap string pyval → M (list run_message * world) string)
    (args : gmap string pyval) (s : list run_message * world) :
  args !! "test_tfr_path" = None →
  save_best_model_and_predict copy_models_and_config_files predict_test_data
    args s =
  match copy_models_and_config_files args (s.1 ++ [SavingBestModel], s.2) with
  | (Return _, s') => (Raise TypeError, s')
  | (Raise e, s') => (Raise e, s')
  end.
Proof.
  intros Hpath. unfold save_best_model_and_predict, logger_info, args_item.
  cbv beta delta [bind ret raise modify]. rewrite Hpath. simpl.
  by destruct (copy_models_and_config_files _ _) as [[[]|e] s'].
Qed.

Lemma no_test_path_raises_witness :
  save_best_model_and_predict (world := unit) (λ _, ret tt) (λ _, ret "")
    {["model" := PStr "small_cnn"]} ([], tt) =
  (Raise TypeError, ([SavingBestModel], tt)).
Proof.
  exact (no_test_path_raises (world := unit) (λ _, ret tt) (λ _, ret "")
           {["model" := PStr "small_cnn"]} ([], tt) eq_refl).
Defined.

(** ** [sorted(_, reverse=True, key=_)] *)

Section sorted_reverse.
Context {A : Type} (key : A → nat).
Implicit Types (x : A) (l : list A).

Lemma insert_reverse_Permutation x l : insert_reverse key x l ≡ₚ x :: l.
Proof.
  induction l as [|y l IH]; simpl; [done|].
  case_bool_decide; [|done]. rewrite IH. apply Permutation_swap.
Qed.

Lemma sorted_reverse_Permutation l : sorted_reverse key l ≡ₚ l.
Proof.
  induction l as [|x l IH]; simpl; [done|].
  by rewrite insert_reverse_Permutation, IH.
Qed.

Lemma insert_reverse_sorted x l :
  StronglySorted (λ a b, key b ≤ key a) l →
  StronglySorted (λ a b, key b ≤ key a) (insert_reverse key x l).
Proof.
  induction 1 as [|y l Hl IH Hy]; simpl.
  - repeat constructor.
  - case_bool_decide as Hlt.
    + constructor; [done|].
      rewrite insert_reverse_Permutation. constructor; [lia | done].
    + constructor; [by constructor|].
      constructor; [lia|].
      eapply Forall_impl; [exact Hy|]. simpl. intros z ?. lia.
Qed.

Lemma sorted_reverse_sorted l :
  StronglySorted (λ a b, key b ≤ key a) (sorted_reverse key l).
Proof.
  induction l as [|x l IH]; simpl; [constructor|].
  by apply insert_reverse_sorted.
Qed.

(** Stability: the elements of any one key keep their order. *)
Lemma insert_reverse_stable x l (c : nat) :
  filter (λ a, key a = c) (insert_reverse key x l) =
  filter (λ a, key a = c) (x :: l).
Proof.
  induction l as [|y l IH]; simpl; [done|].
  case_bool_decide as Hlt; [|done].
  rewrite (filter_cons _ y), IH, !(filter_cons _ x), (filter_cons _ y).
  repeat case_decide; try done; lia.
Qed.

Lemma sorted_reverse_stable l (c : nat) :
  filter (λ a, key a = c) (sorted_reverse key l) =
  filter (λ a, key a = c) l.
Proof.
  induction l as [|x l IH]; simpl; [done|].
  by rewrite insert_reverse_stable, !(filter_cons _ x), IH.
Qed.
End sorted_reverse.

(** Sorting positions by the value they hold sorts the values. *)
Lemma sorted_reverse_fmap {A B} (key : B → nat) (f : A → B) (l : list A) :
  f <$> sorted_reverse (key ∘ f) l = sorted_reverse key (f <$> l).
Proof.
  induction l as [|x l IH]; csimpl; [done|]. rewrite <-IH.
  generalize (sorted_reverse (key ∘ f) l). intros k.
  induction k as [|y k IHk]; csimpl; [done|].
  case_bool_decide; csimpl; by rewrite ?IHk.
Qed.

Lemma items_by_index {V} `{Inhabited V} (d : odict V) :
  (λ idx, (keys d !!! idx, values d !!! idx)) <$> seq 0 (length d) = d.
Proof.
  induction d as [|[k v] d IH]; csimpl; [done|].
  f_equal. rewrite <-fmap_S_seq, <-list_fmap_compose. exact IH.
Qed.

(** ** Counting labels *)

Section dict_updates.
Context {V : Type}.
Implicit Types (d : odict V) (k : string) (v : V).

Lemma set_absent d k v : k ∉ keys d → set d k v = d ++ [(k, v)].
Proof.
  unfold keys. induction d as [|[k' v'] d IH]; csimpl; [done|].
  rewrite not_elem_of_cons. intros [Hne Hd].
  rewrite decide_False by done. by rewrite IH.
Qed.

Lemma set_set d k v v' : set (set d k v) k v' = set d k v'.
Proof.
  induction d as [|[k0 v0] d IH]; simpl.
  - by rewrite decide_True.
  - destruct (decide (k0 = k)) as [->|Hne]; simpl.
    + by rewrite decide_True.
    + rewrite decide_False by done. by rewrite IH.
Qed.

(** A dictionary built from a list of distinct keys. *)
Lemma get_tabulate (f : string → V) (K : list string) k :
  get ((λ x, (x, f x)) <$> K) k =
  if decide (k ∈ K) then Some (f k) else None.
Proof.
  induction K as [|x K IH]; csimpl; [done|].
  destruct (decide (x = k)) as [->|Hne].
  - rewrite decide_True; [done | left].
  - rewrite IH. destruct (decide (k ∈ K)) as [HK|HK].
    + rewrite decide_True; [done | by right].
    + rewrite decide_False; [done|]. rewrite not_elem_of_cons. by split.
Qed.

Lemma set_tabulate (f g : string → V) (K : list string) k :
  NoDup K → k ∈ K →
  (∀ x, x ∈ K → x ≠ k → g x = f x) →
  set ((λ x, (x, f x)) <$> K) k (g k) = (λ x, (x, g x)) <$> K.
Proof.
  induction 1 as [|x K Hx HK IH]; csimpl.
  - by intros ?%elem_of_nil.
  - intros Hk Hg. destruct (decide (x = k)) as [->|Hne].
    + f_equal. apply list_fmap_ext. intros i y Hy. f_equal. symmetry.
      apply Hg; [right; by eapply list_elem_of_lookup_2|].
      intros ->. apply Hx. by eapply list_elem_of_lookup_2.
    + apply elem_of_cons in Hk as [->|Hk]; [done|].
      rewrite (Hg x) by (done || left). f_equal.
      apply IH; [done|]. intros y Hy. apply Hg. by right.
Qed.
End dict_updates.

Lemma count_label_reads_present (d : odict nat) (label : string) :
  is_Some (get (if contains d label then d else set d label 0) label).
Proof.
  rewrite contains_get. case_bool_decide; [done|].
  rewrite get_set, decide_True by done. by eexists.
Qed.

Lemma sum_values_set (d : odict nat) (k : string) (v : nat) :
  sum_list (values (set d k v)) + default 0 (get d k) =
  sum_list (values d) + v.
Proof.
  unfold values. induction d as [|[k' v'] d IH]; csimpl; [lia|].
  destruct (decide (k' = k)) as [->|Hne]; csimpl; lia.
Qed.

Lemma sum_values_count_label (d : odict nat) (label : string) :
  sum_list (values (count_label d label)) = sum_list (values d) + 1.
Proof.
  unfold count_label. rewrite contains_get.
  destruct (get d label) as [c|] eqn:Hc.
  - rewrite bool_decide_true by done. rewrite Hc. simpl.
    pose proof (sum_values_set d label (c + 1)) as Hs.
    rewrite Hc in Hs. simpl in Hs. lia.
  - rewrite bool_decide_false by (by intros [? ?]).
    rewrite get_set, decide_True by done. simpl. rewrite set_set.
    pose proof (sum_values_set d label 1) as Hs.
    rewrite Hc in Hs. simpl in Hs. lia.
Qed.

Lemma sum_values_foldl_count_label (d : odict nat) (l : list string) :
  sum_list (values (foldl count_label d l)) = sum_list (values d) + length l.
Proof.
  revert d. induction l as [|x l IH]; intros d; simpl; [lia|].
  rewrite IH, sum_values_count_label. lia.
Qed.

Lemma elem_of_first_seen (l : list string) (x : string) :
  x ∈ first_seen l ↔ x ∈ l.
Proof.
  induction l as [|y l IH]; simpl; [done|].
  rewrite !elem_of_cons, list_elem_of_filter, IH.
  destruct (decide (x = y)); tauto.
Qed.

Lemma NoDup_first_seen (l : list string) : NoDup (first_seen l).
Proof.
  induction l as [|y l IH]; simpl; [constructor|].
  constructor; [|by apply NoDup_filter].
  rewrite list_elem_of_filter. by intros [? _].
Qed.

Lemma first_seen_snoc (l : list string) (x : string) :
  first_seen (l ++ [x]) =
  if decide (x ∈ l) then first_seen l else first_seen l ++ [x].
Proof.
  induction l as [|y l IH]; simpl; [done|].
  rewrite IH. destruct (decide (x = y)) as [->|Hne].
  - rewrite (decide_True (P := y ∈ y :: l)) by left.
    destruct (decide (y ∈ l)); [done|].
    rewrite filter_app, filter_cons_False by (by intros ?).
    by rewrite filter_nil, app_nil_r.
  - destruct (decide (x ∈ l)) as [Hl|Hl].
    + rewrite decide_True; [done | by right].
    + rewrite decide_False by (rewrite not_elem_of_cons; by split).
      rewrite filter_app, filter_cons_True by done. done.
Qed.

Lemma occurrences_snoc (l : list string) (x y : string) :
  occurrences y (l ++ [x]) =
  occurrences y l + (if decide (x = y) then 1 else 0).
Proof.
  unfold occurrences. rewrite filter_app, length_app, filter_cons.
  by case_decide.
Qed.

Lemma occurrences_absent (l : list string) (x : string) :
  x ∉ l → occurrences x l = 0.
Proof.
  intros Hx. unfold occurrences. rewrite filter_none; [done|].
  apply Forall_forall. by intros y Hy ->.
Qed.

Lemma keys_counts_of (l : list string) : keys (counts_of l) = first_seen l.
Proof.
  unfold keys, counts_of. rewrite <-list_fmap_compose. apply list_fmap_id.
Qed.

Lemma count_label_counts_of (l : list string) (x : string) :
  count_label (counts_of l) x = counts_of (l ++ [x]).
Proof.
  pose proof (keys_counts_of l) as Hkeys.
  unfold count_label, contains. rewrite Hkeys.
  unfold counts_of in *. rewrite first_seen_snoc.
  destruct (decide (x ∈ l)) as [Hl|Hl].
  - rewrite bool_decide_true by by apply elem_of_first_seen.
    rewrite get_tabulate.
    rewrite decide_True by by apply elem_of_first_seen. simpl.
    replace (occurrences x l + 1) with (occurrences x (l ++ [x]))
      by (by rewrite occurrences_snoc, decide_True).
    apply (set_tabulate _ (λ y, occurrences y (l ++ [x]))).
    + apply NoDup_first_seen.
    + by apply elem_of_first_seen.
    + intros y _ Hy. rewrite occurrences_snoc, decide_False by done. lia.
  - rewrite bool_decide_false by by rewrite elem_of_first_seen.
    rewrite get_set, decide_True by done. simpl. rewrite set_set.
    rewrite set_absent by by rewrite Hkeys, elem_of_first_seen.
    rewrite fmap_app. csimpl.
    rewrite occurrences_snoc, decide_True, occurrences_absent by done.
    f_equal. apply list_fmap_ext. intros i y Hy. f_equal.
    rewrite occurrences_snoc, decide_False; [lia|].
    intros ->. apply Hl, elem_of_first_seen.
    by eapply list_elem_of_lookup_2.
Qed.

Lemma foldl_count_label (l0 l : list string) :
  foldl count_label (counts_of l0) l = counts_of (l0 ++ l).
Proof.
  revert l0. induction l as [|x l IH]; intros l0; simpl.
  - by rewrite app_nil_r.
  - rewrite count_label_counts_of, IH. by rewrite <-app_assoc.
Qed.

Lemma foldl_count_label_nil (l : list string) :
  foldl count_label [] l = counts_of l.
Proof. exact (foldl_count_label [] l). Qed.

Lemma sum_values_counts_of (l : list string) :
  sum_list (values (counts_of l)) = length l.
Proof.
  rewrite <-foldl_count_label_nil.
  by rewrite sum_values_foldl_count_label.
Qed.

(** ** The loop of [log_stats] over the inventory *)

Lemma foldl_bind {A B C} (f : A → C → A) (g : B → list C) (a : A)
    (l : list B) :
  foldl (λ a x, foldl f a (g x)) a l = foldl f a (l ≫= g).
Proof.
  revert a. induction l as [|x l IH]; intros a; csimpl; [done|].
  by rewrite foldl_app, IH.
Qed.

Lemma collect_stats_entries (inv : odict record) :
  collect_stats inv = foldl count_labels (Stats [] []) (entries inv).
Proof. unfold collect_stats, entries. apply foldl_bind. Qed.

Lemma lists_of_cons (t ty : string) (ls : list string)
    (E : list (string * list string)) :
  lists_of t ((ty, ls) :: E) =
  if decide (ty = t) then ls :: lists_of t E else lists_of t E.
Proof. unfold lists_of. rewrite filter_cons. simpl. by case_decide. Qed.

Lemma lists_of_app (t : string) (E1 E2 : list (string * list string)) :
  lists_of t (E1 ++ E2) = lists_of t E1 ++ lists_of t E2.
Proof. unfold lists_of. by rewrite filter_app, fmap_app. Qed.

Lemma lists_of_wf (t : string) (d : odict (list string)) :
  wf d → lists_of t d = option_list (get d t).
Proof.
  unfold wf, keys. induction d as [|[k v] d IH]; csimpl; [done|].
  rewrite NoDup_cons. intros [Hk Hd]. rewrite lists_of_cons.
  destruct (decide (k = t)) as [->|Hne]; [|by apply IH].
  simpl. f_equal. rewrite IH by done.
  by apply get_None in Hk as ->.
Qed.

Lemma lists_of_entries (t : string) (inv : odict record) :
  wf_labels inv → lists_of t (entries inv) = label_lists t inv.
Proof.
  unfold entries, label_lists.
  induction 1 as [|[id r] inv Hr _ IH]; csimpl; [done|].
  rewrite lists_of_app, IH, lists_of_wf by done.
  by destruct (get (labels r) t).
Qed.

(** The loop over one label list: only the counts of its type change. *)
Lemma count_label_list (ty : string) (ls : list string) (st : stats)
    (d : odict nat) :
  get (label_stats st) ty = Some d →
  let st' :=
    foldl (λ st label,
             Stats (set (label_stats st) ty
                      (count_label
                         (default [] (get (label_stats st) ty)) label))
                   (label_type_stats st))
          st ls in
  label_type_stats st' = label_type_stats st ∧
  keys (label_stats st') = keys (label_stats st) ∧
  ∀ t, get (label_stats st') t =
       if decide (ty = t) then Some (foldl count_label d ls)
       else get (label_stats st) t.
Proof.
  revert st d. induction ls as [|x ls IH]; intros st d Hd; simpl.
  - split_and!; [done..|]. intros t. by case_decide; subst.
  - rewrite Hd. simpl.
    set (st1 := Stats (set (label_stats st) ty (count_label d x))
                      (label_type_stats st)).
    destruct (IH st1 (count_label d x)) as (Hlts & Hkeys & Hget).
    { simpl. by rewrite get_set, decide_True. }
    split_and!.
    + by rewrite Hlts.
    + rewrite Hkeys. simpl. rewrite keys_set, contains_get, Hd.
      by rewrite bool_decide_true.
    + intros t. rewrite Hget. simpl. rewrite get_set.
      by destruct (decide (ty = t)).
Qed.

Lemma keys_eq_get {V W} (d : odict V) (e : odict W) (k : string) :
  keys d = keys e → is_Some (get d k) ↔ is_Some (get e k).
Proof. intros Hk. by rewrite !get_is_Some, Hk. Qed.

(** One entry: the counts and the number of records with several labels of
    its type are brought up to date, those of other types are left. *)
Lemma count_labels_step (st : stats) (ty : string) (ls : list string) :
  keys (label_stats st) = keys (label_type_stats st) →
  let st' := count_labels st (ty, ls) in
  keys (label_stats st') = keys (label_type_stats st') ∧
  ∀ t,
    get (label_stats st') t =
      (if decide (ty = t)
       then Some (foldl count_label (default [] (get (label_stats st) t)) ls)
       else get (label_stats st) t) ∧
    get (label_type_stats st') t =
      (if decide (ty = t)
       then Some (default 0 (get (label_type_stats st) t) +
                  (if bool_decide (1 < length ls) then 1 else 0))
       else get (label_type_stats st) t).
Proof.
  intros Hkeys. unfold count_labels.
  set (st0 := if contains (label_stats st) ty then st else _).
  assert (keys (label_stats st0) = keys (label_type_stats st0) ∧
          get (label_stats st0) ty =
            Some (default [] (get (label_stats st) ty)) ∧
          get (label_type_stats st0) ty =
            Some (default 0 (get (label_type_stats st) ty)) ∧
          ∀ t, ty ≠ t →
            get (label_stats st0) t = get (label_stats st) t ∧
            get (label_type_stats st0) t = get (label_type_stats st) t)
    as (Hkeys0 & Hd0 & Hm0 & Hother0).
  { subst st0. rewrite contains_get.
    destruct (get (label_stats st) ty) as [d|] eqn:Hd.
    - rewrite bool_decide_true by done.
      destruct (proj1 (keys_eq_get _ _ ty Hkeys)) as [m Hm];
        [by rewrite Hd|].
      rewrite Hd, Hm. done.
    - rewrite bool_decide_false by (by intros [? ?]). simpl.
      assert (get (label_type_stats st) ty = None) as Hm.
      { apply eq_None_not_Some. rewrite <-(keys_eq_get _ _ ty Hkeys), Hd.
        by intros [? ?]. }
      rewrite !keys_set, !contains_get, Hd, Hm, Hkeys.
      rewrite !bool_decide_false by (by intros [? ?]).
      rewrite !get_set, !decide_True by done.
      split_and!; [done..|]. intros t Hne.
      by rewrite !get_set, !decide_False. }
  clearbody st0.
  set (st1 := if bool_decide (1 < length ls) then _ else st0).
  assert (label_stats st1 = label_stats st0 ∧
          keys (label_type_stats st1) = keys (label_type_stats st0) ∧
          ∀ t, get (label_type_stats st1) t =
               if decide (ty = t)
               then Some (default 0 (get (label_type_stats st) ty) +
                          (if bool_decide (1 < length ls) then 1 else 0))
               else get (label_type_stats st0) t)
    as (Hls1 & Hkeys1 & Hm1).
  { subst st1. case_bool_decide; simpl.
    - rewrite keys_set, contains_get, Hm0, bool_decide_true by done.
      split_and!; [done..|]. intros t. by rewrite get_set.
    - split_and!; [done..|]. intros t.
      case_decide; subst; rewrite ?Hm0; f_equal; lia. }
  clearbody st1.
  destruct (count_label_list ty ls st1 (default [] (get (label_stats st) ty)))
    as (Hlts & Hkeys2 & Hget); [by rewrite Hls1|].
  split.
  - by rewrite Hkeys2, Hlts, Hls1, Hkeys1.
  - intros t. rewrite Hget, Hlts, Hm1, Hls1.
    destruct (decide (ty = t)) as [->|Hne]; [done|].
    by destruct (Hother0 t Hne) as [-> ->].
Qed.

(** All entries: what the two dictionaries hold for a label type. *)
Lemma count_labels_entries (E : list (string * list string)) (st : stats) :
  keys (label_stats st) = keys (label_type_stats st) →
  let st' := foldl count_labels st E in
  keys (label_stats st') = keys (label_type_stats st') ∧
  ∀ t,
    get (label_stats st') t =
      (if decide (lists_of t E = []) then get (label_stats st) t
       else Some (foldl count_label (default [] (get (label_stats st) t))
                    (concat (lists_of t E)))) ∧
    get (label_type_stats st') t =
      (if decide (lists_of t E = []) then get (label_type_stats st) t
       else Some (default 0 (get (label_type_stats st) t) +
                  length (filter (λ l, 1 < length l) (lists_of t E)))).
Proof.
  revert st.
  induction E as [|[ty ls] E IH]; intros st Hkeys; cbv zeta; cbn [foldl].
  - done.
  - destruct (count_labels_step st ty ls Hkeys) as [Hkeys1 Hstep].
    destruct (IH _ Hkeys1) as [Hkeys' Hget]. split; [done|].
    intros t. destruct (Hget t) as [-> ->], (Hstep t) as [-> ->].
    rewrite lists_of_cons.
    destruct (decide (ty = t)) as [->|Hne]; [|done].
    rewrite (decide_False (P := _ :: _ = [])) by done.
    rewrite filter_cons. simpl. rewrite foldl_app.
    destruct (decide (lists_of t E = [])) as [->|HE]; simpl.
    + split; [done|]. f_equal.
      case_bool_decide; case_decide; simpl; lia.
    + split; [done|]. f_equal.
      case_bool_decide; case_decide; simpl; lia.
Qed.

(** What [log_stats] has counted for a label type: nothing when no record
    carries the type, and else every label met under the type with the
    number of times it was met, in the order the labels were first met,
    together with the number of label lists with more than one label. *)
Lemma collect_stats_spec (inv : odict record) (t : string) :
  let lists := lists_of t (entries inv) in
  get (label_stats (collect_stats inv)) t =
    (if decide (lists = []) then None else Some (counts_of (concat lists))) ∧
  get (label_type_stats (collect_stats inv)) t =
    (if decide (lists = []) then None
     else Some (length (filter (λ l, 1 < length l) lists))).
Proof.
  rewrite collect_stats_entries.
  destruct (count_labels_entries (entries inv) (Stats [] []) eq_refl)
    as [_ Hget].
  destruct (Hget t) as [-> ->]. simpl.
  by rewrite foldl_count_label_nil.
Qed.

Lemma collect_stats_wf (inv : odict record) :
  wf (label_stats (collect_stats inv)) ∧
  keys (label_stats (collect_stats inv)) =
    keys (label_type_stats (collect_stats inv)).
Proof.
  rewrite collect_stats_entries.
  destruct (count_labels_entries (entries inv) (Stats [] []) eq_refl)
    as [Hkeys _].
  split; [|done]. generalize (entries inv). intros E.
  assert (wf (label_stats (Stats [] []))) as Hwf by constructor.
  revert Hwf. generalize (Stats [] []).
  induction E as [|[ty ls] E IH]; intros st Hwf; simpl; [done|].
  apply IH. unfold count_labels.
  set (st0 := if contains (label_stats st) ty then st else _).
  assert (wf (label_stats st0)) as Hwf0.
  { subst st0. case_match; [done|]. by apply wf_set. }
  clearbody st0.
  set (st1 := if bool_decide (1 < length ls) then _ else st0).
  assert (wf (label_stats st1)) as Hwf1 by (subst st1; by case_match).
  clearbody st1. clear -Hwf1. revert st1 Hwf1.
  induction ls as [|x ls IHls]; intros st1 Hwf1; simpl; [done|].
  apply IHls. simpl. by apply wf_set.
Qed.

(** ** What [log_stats] logs *)

Lemma add_logging_nil (s : state) : add_logging [] s = s.
Proof. destruct s. unfold add_logging. simpl. by rewrite app_nil_r. Qed.

Lemma add_logging_app (l1 l2 : list (level * message)) (s : state) :
  add_logging l2 (add_logging l1 s) = add_logging (l1 ++ l2) s.
Proof. unfold add_logging. simpl. by rewrite app_assoc. Qed.

Lemma bind_singletons {A B} (f : A → B) (l : list A) :
  mbind (M := list) (λ x, [f x]) l = f <$> l.
Proof. induction l as [|x l IH]; csimpl; [done|]. by rewrite IH. Qed.

Lemma for_each_logging {A} (l : list A) (body : A → M state unit)
    (g : A → list (level * message)) (s : state) :
  (∀ x s, x ∈ l → body x s = (Return tt, add_logging (g x) s)) →
  for_each l (λ _ x, body x) tt s =
    (Return tt, add_logging (mbind (M := list) g l) s).
Proof.
  revert s. induction l as [|x l IH]; intros s Hbody; csimpl.
  - by rewrite add_logging_nil.
  - unfold bind. rewrite Hbody by left.
    rewrite IH by (intros; apply Hbody; by right).
    by rewrite add_logging_app.
Qed.

Lemma stat_lines_by_index (label_type : string) (d : odict nat) :
  (λ idx, (INFO, LabelStat label_type (keys d !!! idx) (values d !!! idx)
                   (sum_list (values d)))) <$>
    sorted_reverse (λ k, values d !!! k) (seq 0 (length (values d))) =
  stat_lines label_type d.
Proof.
  unfold stat_lines.
  set (item := λ idx, (keys d !!! idx, values d !!! idx)).
  trans ((λ lc : string * nat,
            (INFO, LabelStat label_type lc.1 lc.2 (sum_list (values d)))) <$>
           (item <$> sorted_reverse (λ k, values d !!! k)
                       (seq 0 (length (values d))))).
  { by rewrite <-list_fmap_compose. }
  f_equal. etrans; [apply (sorted_reverse_fmap snd item)|].
  f_equal. unfold values at 1. rewrite length_fmap. apply items_by_index.
Qed.

Lemma log_label_stats_run (label_type : string) (d : odict nat) (s : state) :
  d = [] ∨ 0 < sum_list (values d) →
  log_label_stats label_type d s =
    (Return tt, add_logging (stat_lines label_type d) s).
Proof.
  intros Hd. unfold log_label_stats.
  rewrite <-stat_lines_by_index.
  set (sort_index := sorted_reverse _ _).
  rewrite (for_each_logging sort_index _
             (λ idx, [(INFO, LabelStat label_type (keys d !!! idx)
                               (values d !!! idx) (sum_list (values d)))])).
  - by rewrite bind_singletons.
  - intros idx s' Hidx. destruct Hd as [->|Hd].
    + by apply elem_of_nil in Hidx.
    + by rewrite bool_decide_false by lia.
Qed.

Lemma label_stats_nonempty (inv : odict record) (t : string) (d : odict nat) :
  (t, d) ∈ label_stats (collect_stats inv) →
  d = [] ∨ 0 < sum_list (values d).
Proof.
  intros Hin. destruct (collect_stats_wf inv) as [Hwf _].
  apply elem_get in Hin; [|done].
  destruct (collect_stats_spec inv t) as [Hget _]. rewrite Hin in Hget.
  case_decide; [done|]. injection Hget as ->.
  rewrite sum_values_counts_of.
  destruct (concat (lists_of t (entries inv))); [by left | right; simpl; lia].
Qed.

Lemma log_stats_run (s : state) (inv : odict record) :
  data_inventory s = Some inv →
  log_stats s = (Return tt, add_logging (stat_log (collect_stats inv)) s).
Proof.
  intros Hinv. unfold log_stats, stat_log.
  cbv beta delta [bind inventory_attr]. rewrite Hinv.
  rewrite (for_each_logging _ (λ kv, log_label_stats kv.1 kv.2)
             (λ kv, stat_lines kv.1 kv.2)).
  - rewrite (for_each_logging _
               (λ kv, log_record INFO (MultipleLabels kv.1 kv.2))
               (λ kv, [(INFO, MultipleLabels kv.1 kv.2)])) by done.
    by rewrite add_logging_app, bind_singletons.
  - intros [t d] s' Hin. apply log_label_stats_run.
    by eapply label_stats_nonempty.
Qed.

Lemma label_lines_stat_lines (t t' : string) (d : odict nat) :
  label_lines t (stat_lines t' d) =
  if decide (t' = t) then sorted_reverse snd d else [].
Proof.
  unfold label_lines, stat_lines.
  generalize (sum_list (values d)) (sorted_reverse snd d). intros tot l.
  induction l as [|[x c] l IH]; csimpl.
  - by case_decide.
  - rewrite IH. by case_decide.
Qed.

Lemma label_lines_app (t : string) (l1 l2 : list (level * message)) :
  label_lines t (l1 ++ l2) = label_lines t l1 ++ label_lines t l2.
Proof. apply omap_app. Qed.

Lemma label_lines_multiple (t : string) (d : odict nat) :
  label_lines t ((λ kv, (INFO, MultipleLabels kv.1 kv.2)) <$> d) = [].
Proof. unfold label_lines. induction d as [|x l IH]; csimpl; done. Qed.

Lemma label_lines_stat_log (t : string) (st : stats) :
  wf (label_stats st) →
  label_lines t (stat_log st) =
    sorted_reverse snd (default [] (get (label_stats st) t)).
Proof.
  unfold stat_log.
  rewrite label_lines_app, label_lines_multiple, app_nil_r.
  unfold wf, keys.
  induction (label_stats st) as [|[t' d] l IH]; [done|].
  rewrite fmap_cons, NoDup_cons. intros [Ht' Hl]. simpl in Ht'.
  rewrite bind_cons, label_lines_app, label_lines_stat_lines, IH by done.
  cbn [get fst snd]. destruct (decide (t' = t)) as [->|Hne].
  - apply get_None in Ht'. rewrite Ht'. simpl. by rewrite app_nil_r.
  - done.
Qed.

Lemma label_stats_counts (inv : odict record) (t : string) :
  wf_labels inv →
  default [] (get (label_stats (collect_stats inv)) t) =
    counts_of (concat (label_lists t inv)) ∧
  default 0 (get (label_type_stats (collect_stats inv)) t) =
    length (filter (λ l, 1 < length l) (label_lists t inv)).
Proof.
  intros Hwf. destruct (collect_stats_spec inv t) as [-> ->].
  rewrite lists_of_entries by done.
  by destruct (decide (label_lists t inv = [])) as [->|].
Qed.

(** C4, as the code has it. The counts of the labels of a type add up to the
    number of label values the records carry for the type, which is the number
    of records carrying the type when each of them has one value; the count
    of records with several labels is the number of records whose list for
    the type has more than one value, and never exceeds the number of
    records carrying the type. *)
Theorem label_statistics_totals (inv : odict record) (t : string) :
  wf_labels inv →
  let counts := default [] (get (label_stats (collect_stats inv)) t) in
  let several := default 0 (get (label_type_stats (collect_stats inv)) t) in
  sum_list (values counts) = length (concat (label_lists t inv)) ∧
  (Forall (λ l, length l = 1) (label_lists t inv) →
   sum_list (values counts) = length (label_lists t inv)) ∧
  several = length (filter (λ l, 1 < length l) (label_lists t inv)) ∧
  several ≤ length (label_lists t inv).
Proof.
  intros Hwf. destruct (label_stats_counts inv t Hwf) as [-> ->]. simpl.
  rewrite sum_values_counts_of. split_and!; [done | | done |].
  - induction 1 as [|l ls Hl _ IH]; simpl; [done|].
    rewrite length_app, IH. lia.
  - apply length_filter.
Qed.

Lemma label_statistics_totals_witness :
  let inv := three_records in
  let t := "species" in
  let counts := default [] (get (label_stats (collect_stats inv)) t) in
  let several := default 0 (get (label_type_stats (collect_stats inv)) t) in
  sum_list (values counts) = length (concat (label_lists t inv)) ∧
  (Forall (λ l, length l = 1) (label_lists t inv) →
   sum_list (values counts) = length (label_lists t inv)) ∧
  several = length (filter (λ l, 1 < length l) (label_lists t inv)) ∧
  several ≤ length (label_lists t inv).
Proof.
  apply (label_statistics_totals three_records "species").
  unfold wf_labels, wf. apply (bool_decide_unpack _). by vm_compute.
Defined.

(** C4 as the specification words it fails: of three records with a species,
    one of them with two, the counts add up to four. *)
Lemma counts_exceed_records :
  sum_list (values (default []
    (get (label_stats (collect_stats three_records)) "species"))) = 4 ∧
  length (label_lists "species" three_records) = 3.
Proof. by vm_compute. Qed.

(** C6. The lines [log_stats] logs for a label type are the labels met under
    the type with their counts, sorted by descending count, and labels of
    equal count come in the order they were first met. *)
Theorem log_stats_order (s : state) (inv : odict record) (t : string) :
  data_inventory s = Some inv →
  wf_labels inv →
  ∃ new,
    log_stats s = (Return tt, add_logging new s) ∧
    label_lines t new ≡ₚ counts_of (concat (label_lists t inv)) ∧
    StronglySorted (λ a b, b.2 ≤ a.2) (label_lines t new) ∧
    ∀ c, filter (λ a, a.2 = c) (label_lines t new) =
         filter (λ a, a.2 = c) (counts_of (concat (label_lists t inv))).
Proof.
  intros Hinv Hwf. exists (stat_log (collect_stats inv)).
  split; [by apply log_stats_run|].
  rewrite label_lines_stat_log by apply collect_stats_wf.
  destruct (label_stats_counts inv t Hwf) as [-> _]. split_and!.
  - apply sorted_reverse_Permutation.
  - apply (sorted_reverse_sorted snd).
  - intros c. apply (sorted_reverse_stable snd).
Qed.

Lemma log_stats_order_witness :
  (∃ new,
     log_stats (fresh_state (Some abc_records)) =
       (Return tt, add_logging new (fresh_state (Some abc_records))) ∧
     label_lines "species" new ≡ₚ
       counts_of (concat (label_lists "species" abc_records)) ∧
     StronglySorted (λ a b, b.2 ≤ a.2) (label_lines "species" new) ∧
     ∀ c, filter (λ a, a.2 = c) (label_lines "species" new) =
          filter (λ a, a.2 = c)
            (counts_of (concat (label_lists "species" abc_records)))) ∧
  counts_of (concat (label_lists "species" abc_records)) =
    [("a", 5); ("b", 9); ("c", 9)] ∧
  label_lines "species"
    (logging (log_stats (fresh_state (Some abc_records))).2) =
    [("b", 9); ("c", 9); ("a", 5)].
Proof.
  split.
  - apply (log_stats_order (fresh_state (Some abc_records)) abc_records
             "species").
    + reflexivity.
    + unfold wf_labels, wf. apply (bool_decide_unpack _). by vm_compute.
  - by vm_compute.
Defined.

(** ** More on the membership operations *)

Lemma fraction_above_one_raises_witness :
  randomly_remove_samples_to_percent (3 # 2) (fresh_state (Some three_records))
  = (Raise ValueError, fresh_state (Some three_records)).
Proof.
  exact (fraction_above_one_raises (fresh_state (Some three_records)) (3 # 2)
           eq_refl).
Defined.

(** X2. A negative fraction with [n_total * p_keep] at or below minus one
    asks [random.sample] for a negative number of ids: the call raises a
    [ValueError] and leaves the state as it was. *)
Theorem negative_sample_size_raises
    (s : state) (inv : odict record) (p_keep : Q) :
  data_inventory s = Some inv →
  (inject_Z (Z.of_nat (length (keys inv))) * p_keep <= -1)%Q →
  randomly_remove_samples_to_percent p_keep s = (Raise ValueError, s).
Proof.
  intros Hinv Hk. unfold randomly_remove_samples_to_percent.
  set (n := Z.of_nat (length (keys inv))) in *.
  assert (0 ≤ n)%Z by (subst n; lia).
  destruct p_keep as [a b]. unfold Qle in Hk. simpl in Hk.
  assert (Qle_bool (a # b) 1 = true) as ->.
  { apply Qle_bool_iff. unfold Qle. simpl. nia. }
  assert (py_int (inject_Z n * (a # b)) < 0)%Z as Hneg.
  { unfold py_int. simpl. rewrite Pos.mul_1_l in *.
    rewrite <-(Z.opp_involutive (n * a)), Z.quot_opp_l by lia.
    rewrite Z.quot_div_nonneg by lia.
    assert (1 ≤ (- (n * a)) `div` Z.pos b)%Z; [|lia].
    apply Z.div_le_lower_bound; lia. }
  simpl. unfold_M. rewrite Hinv. unfold random_sample.
  fold n. by rewrite bool_decide_false by lia.
Qed.

Lemma negative_sample_size_raises_witness :
  randomly_remove_samples_to_percent (-1 # 2)
    (fresh_state (Some three_records)) =
  (Raise ValueError, fresh_state (Some three_records)).
Proof.
  apply (negative_sample_size_raises (fresh_state (Some three_records))
           three_records (-1 # 2)); reflexivity || (by vm_compute).
Defined.

Lemma length_pop {V} (d : odict V) (k : string) :
  length (pop d k) =
  if decide (k ∈ keys d) then length d - 1 else length d.
Proof.
  unfold keys. induction d as [|[k' v'] d IH]; csimpl; [done|].
  destruct (decide (k' = k)) as [->|Hne]; csimpl.
  - rewrite decide_True by left. lia.
  - rewrite IH. destruct (decide (k ∈ d.*1)) as [Hin|Hin].
    + rewrite decide_True by (by right).
      destruct d; [by apply elem_of_nil in Hin | simpl; lia].
    + rewrite decide_False; [done|]. rewrite not_elem_of_cons. by split.
Qed.

Lemma pop_pop {V} (d : odict V) (k1 k2 : string) :
  pop (pop d k1) k2 = pop (pop d k2) k1.
Proof.
  induction d as [|[k v] d IH]; simpl; [done|].
  destruct (decide (k = k1)) as [<-|Hne1], (decide (k = k2)) as [<-|Hne2];
    simpl; rewrite ?decide_True, ?decide_False by done; try done.
  by rewrite IH.
Qed.

Lemma pop_idemp {V} (d : odict V) (k : string) :
  wf d → pop (pop d k) k = pop d k.
Proof.
  intros Hwf. apply pop_absent. rewrite keys_pop by done.
  rewrite list_elem_of_filter. by intros [? _].
Qed.

(** X3. After [remove_record(id)] the id is gone: looking it up raises a
    [KeyError], while every other id is looked up with the outcome it had
    before. *)
Theorem removed_record_is_gone (s : state) (inv : odict record) (id : string) :
  data_inventory s = Some inv →
  wf inv →
  ∃ s', remove_record id s = (Return tt, s') ∧
    get_record_id_data id s' = (Raise KeyError, s') ∧
    ∀ id', id' ≠ id →
      get_record_id_data id' s' = ((get_record_id_data id' s).1, s').
Proof.
  intros Hinv Hwf. eexists. split.
  { unfold remove_record. unfold_M. by rewrite Hinv. }
  unfold get_record_id_data, inventory_item. simpl. rewrite Hinv. split.
  - by rewrite get_pop, decide_True.
  - intros id' Hne. rewrite get_pop, decide_False by done.
    by destruct (get inv id').
Qed.

Lemma removed_record_is_gone_witness :
  ∃ s', remove_record "img_2" (fresh_state (Some three_records)) =
          (Return tt, s') ∧
    get_record_id_data "img_2" s' = (Raise KeyError, s') ∧
    ∀ id', id' ≠ "img_2" →
      get_record_id_data id' s' =
        ((get_record_id_data id' (fresh_state (Some three_records))).1, s').
Proof.
  apply (removed_record_is_gone (fresh_state (Some three_records))
           three_records "img_2").
  - reflexivity.
  - unfold wf. apply (bool_decide_unpack _). by vm_compute.
Defined.

(** X4. [get_number_of_records] after [remove_record(id)] is one less than
    before when the id was a member and the same when it was not; it is the
    length of what [get_all_record_ids] returns. *)
Theorem remove_record_count (s : state) (inv : odict record) (id : string) :
  data_inventory s = Some inv →
  ∃ s', remove_record id s = (Return tt, s') ∧
    get_number_of_records s = (Return (length inv), s) ∧
    get_number_of_records s' =
      (Return (if decide (id ∈ keys inv) then length inv - 1 else length inv),
       s') ∧
    ∃ ids, get_all_record_ids s' = (Return ids, s') ∧
      get_number_of_records s' = (Return (length ids), s').
Proof.
  intros Hinv. eexists. split.
  { unfold remove_record. unfold_M. by rewrite Hinv. }
  unfold get_number_of_records, get_all_record_ids. unfold_M. simpl.
  rewrite Hinv. unfold keys at 1 2. rewrite !length_fmap, length_pop.
  split_and!; [done..|]. eexists. split; [done|].
  unfold keys. by rewrite length_fmap, length_pop.
Qed.

Lemma remove_record_count_witness :
  ∃ s', remove_record "img_2" (fresh_state (Some three_records)) =
          (Return tt, s') ∧
    get_number_of_records (fresh_state (Some three_records)) =
      (Return 3, fresh_state (Some three_records)) ∧
    get_number_of_records s' = (Return 2, s') ∧
    ∃ ids, get_all_record_ids s' = (Return ids, s') ∧
      get_number_of_records s' = (Return (length ids), s').
Proof.
  exact (remove_record_count (fresh_state (Some three_records)) three_records
           "img_2" eq_refl).
Defined.

(** X5. Removing the same id a second time changes nothing, and two removals
    give the same inventory in either order. *)
Theorem remove_record_twice (s : state) (inv : odict record)
    (id1 id2 : string) :
  data_inventory s = Some inv →
  wf inv →
  (∃ s', remove_record id1 s = (Return tt, s') ∧
         remove_record id1 s' = (Return tt, s')) ∧
  (run remove_record id1; remove_record id2) s =
  (run remove_record id2; remove_record id1) s.
Proof.
  intros Hinv Hwf. unfold remove_record. unfold_M. rewrite Hinv. simpl. split.
  - eexists. split; [done|].
    unfold set_data_inventory. simpl. by rewrite pop_idemp.
  - unfold set_data_inventory. simpl. by rewrite pop_pop.
Qed.

Lemma remove_record_twice_witness :
  let s := fresh_state (Some three_records) in
  (∃ s', remove_record "img_1" s = (Return tt, s') ∧
         remove_record "img_1" s' = (Return tt, s')) ∧
  (run remove_record "img_1"; remove_record "img_3") s =
  (run remove_record "img_3"; remove_record "img_1") s.
Proof.
  apply (remove_record_twice (fresh_state (Some three_records)) three_records
           "img_1" "img_3").
  - reflexivity.
  - unfold wf. apply (bool_decide_unpack _). by vm_compute.
Defined.

(** X6. Exporting never touches the inventory, and a second export to the
    same path leaves the files as the first one did. *)
Theorem export_to_json_twice (s s1 : state) (json_path : string) :
  export_to_json json_path s = (Return tt, s1) →
  data_inventory s1 = data_inventory s ∧
  ∃ s2, export_to_json json_path s1 = (Return tt, s2) ∧
    files s2 = files s1 ∧
    data_inventory s2 = data_inventory s.
Proof.
  unfold export_to_json. unfold_M.
  destruct s as [[inv|] lg fs wr rnd]; simpl.
  - destruct (wr json_path) eqn:Hw; simpl; [|done].
    intros [= <-]. simpl. rewrite Hw. simpl.
    split; [done|]. eexists. split; [done|]. simpl.
    by rewrite insert_insert_eq.
  - intros [= <-]. simpl. eauto.
Qed.

Lemma export_to_json_twice_witness :
  ∃ s1, export_to_json "inv.json" (fresh_state (Some one_record)) =
          (Return tt, s1) ∧
    data_inventory s1 = Some one_record ∧
    ∃ s2, export_to_json "inv.json" s1 = (Return tt, s2) ∧
      files s2 = files s1 ∧
      data_inventory s2 = Some one_record.
Proof.
  eexists. split; [reflexivity|].
  exact (export_to_json_twice (fresh_state (Some one_record)) _ "inv.json"
           eq_refl).
Defined.

(** ** More on sampling and on the counts *)

Lemma omap_ext_elem {A B} (f g : A → option B) (l : list A) :
  (∀ x, x ∈ l → f x = g x) → omap f l = omap g l.
Proof.
  induction l as [|x l IH]; intros Hfg; csimpl; [done|].
  rewrite (Hfg x) by left. rewrite IH; [done|].
  intros y Hy. apply Hfg. by right.
Qed.

Lemma omap_submseteq {A B} (f : A → option B) (l1 l2 : list A) :
  l1 ⊆+ l2 → omap f l1 ⊆+ omap f l2.
Proof.
  intros [k ->]%submseteq_Permutation. rewrite omap_app.
  by apply submseteq_inserts_r.
Qed.

(** A dictionary is its keys with the values looked up under them. *)
Lemma dict_from_keys {V} (d : odict V) :
  wf d → omap (λ k, pair k <$> get d k) (keys d) = d.
Proof.
  unfold wf, keys. induction d as [|[k v] d IH]; csimpl; [done|].
  rewrite NoDup_cons. intros [Hk Hd]. rewrite decide_True by done. csimpl.
  f_equal. rewrite <-IH at 2 by done. apply omap_ext_elem.
  intros k' Hk'. rewrite decide_False; [done|]. by intros ->.
Qed.

(** What a sampling that passes its tests does: the new inventory holds the
    drawn ids, in the order drawn, each with the record it had. *)
Lemma sample_run (s : state) (inv : odict record) (p_keep : Q) :
  data_inventory s = Some inv →
  wf inv →
  Qle_bool p_keep 1 = true →
  let k := py_int (inject_Z (Z.of_nat (length (keys inv))) * p_keep) in
  (0 ≤ k ≤ Z.of_nat (length (keys inv)))%Z →
  randomly_remove_samples_to_percent p_keep s =
    (Return tt,
     State (Some (omap (λ id, pair id <$> get inv id)
                    (draw (keys inv) (Z.to_nat k) (random s))))
       (logging s) (files s) (writable s)
       (λ i, random s (Z.to_nat k + i))).
Proof.
  intros Hinv Hwf Hle k Hk. unfold randomly_remove_samples_to_percent.
  rewrite Hle.
  set (choices := draw (keys inv) (Z.to_nat k) (random s)).
  set (s1 := State (data_inventory s) (logging s) (files s) (writable s)
               (λ i, random s (Z.to_nat k + i))).
  destruct (copy_choices inv s1 choices []) as (new & Hrun & Hkeys & Hget);
    [done | by apply NoDup_draw | |].
  { intros id Hid. split; [by eapply elem_of_draw | apply not_elem_of_nil]. }
  revert Hrun. cbn [negb]. unfold_M. rewrite Hinv.
  unfold random_sample. fold k. rewrite bool_decide_true by done.
  fold choices s1. intros ->. unfold set_data_inventory, s1. simpl.
  do 3 f_equal. simpl in Hkeys.
  rewrite <-(dict_from_keys new) by (unfold wf; rewrite Hkeys;
                                      by apply NoDup_draw).
  rewrite Hkeys. apply omap_ext_elem. intros id Hid.
  by rewrite Hget, decide_True.
Qed.

Lemma sample_submseteq (inv : odict record) (choices : list string) :
  wf inv → choices ⊆+ keys inv →
  omap (λ id, pair id <$> get inv id) choices ⊆+ inv.
Proof.
  intros Hwf Hsub.
  trans (omap (λ id, pair id <$> get inv id) (keys inv)).
  - by apply omap_submseteq.
  - by rewrite dict_from_keys.
Qed.

(** X7. Sampling everything keeps every record, in the order drawn, and
    sampling nothing leaves an empty inventory. *)
Theorem sample_all_or_nothing (s : state) (inv : odict record) :
  data_inventory s = Some inv →
  wf inv →
  (∃ s' inv', randomly_remove_samples_to_percent 1 s = (Return tt, s') ∧
     data_inventory s' = Some inv' ∧ inv' ≡ₚ inv) ∧
  (∃ s', randomly_remove_samples_to_percent 0 s = (Return tt, s') ∧
     data_inventory s' = Some []).
Proof.
  intros Hinv Hwf. split.
  - assert (py_int (inject_Z (Z.of_nat (length (keys inv))) * 1) =
            Z.of_nat (length (keys inv))) as Hk.
    { unfold py_int. simpl. rewrite Z.mul_1_r. apply Z.quot_1_r. }
    rewrite (sample_run s inv 1 Hinv Hwf eq_refl) by (rewrite Hk; lia).
    rewrite Hk, Nat2Z.id. eexists _, _. split_and!; [done..|].
    apply submseteq_length_Permutation.
    + apply sample_submseteq; [done | apply draw_submseteq].
    + assert (draw (keys inv) (length (keys inv)) (random s) ≡ₚ keys inv)
        as ->.
      { apply submseteq_length_Permutation; [apply draw_submseteq|].
        by rewrite length_draw. }
      by rewrite dict_from_keys.
  - rewrite (sample_run s inv 0 Hinv Hwf eq_refl).
    + eexists. split; [done|]. simpl.
      replace (py_int _) with 0%Z; [done|].
      unfold py_int. simpl. by rewrite Z.mul_0_r.
    + replace (py_int _) with 0%Z; [lia|].
      unfold py_int. simpl. by rewrite Z.mul_0_r.
Qed.

Lemma sample_all_or_nothing_witness :
  let s := fresh_state (Some three_records) in
  (∃ s' inv', randomly_remove_samples_to_percent 1 s = (Return tt, s') ∧
     data_inventory s' = Some inv' ∧ inv' ≡ₚ three_records) ∧
  (∃ s', randomly_remove_samples_to_percent 0 s = (Return tt, s') ∧
     data_inventory s' = Some []).
Proof.
  apply (sample_all_or_nothing (fresh_state (Some three_records))
           three_records).
  - reflexivity.
  - unfold wf. apply (bool_decide_unpack _). by vm_compute.
Defined.

Lemma occurrences_app (x : string) (l1 l2 : list string) :
  occurrences x (l1 ++ l2) = occurrences x l1 + occurrences x l2.
Proof. unfold occurrences. by rewrite filter_app, length_app. Qed.

Lemma occurrences_concat_Permutation (x : string)
    (ls1 ls2 : list (list string)) :
  ls1 ≡ₚ ls2 → occurrences x (concat ls1) = occurrences x (concat ls2).
Proof.
  induction 1 as [|l ls1 ls2 _ IH|l1 l2 ls|ls1 ls2 ls3 _ IH1 _ IH2]; simpl.
  - done.
  - by rewrite !occurrences_app, IH.
  - rewrite !occurrences_app. lia.
  - by rewrite IH1.
Qed.

Lemma label_lists_app (t : string) (inv1 inv2 : odict record) :
  label_lists t (inv1 ++ inv2) = label_lists t inv1 ++ label_lists t inv2.
Proof. apply omap_app. Qed.

(** The count held for a label is the number of times the records carry it
    under the label type. *)
Lemma label_count_occurrences (inv : odict record) (t l : string) :
  wf_labels inv →
  label_count inv t l = occurrences l (concat (label_lists t inv)).
Proof.
  intros Hwf. unfold label_count.
  destruct (label_stats_counts inv t Hwf) as [-> _].
  unfold counts_of. rewrite get_tabulate.
  case_decide as Hl; [done|]. simpl.
  rewrite occurrences_absent; [done|]. by rewrite <-elem_of_first_seen.
Qed.

Lemma label_count_Permutation (inv inv1 inv2 : odict record) (t l : string) :
  wf_labels inv →
  inv ≡ₚ inv1 ++ inv2 →
  wf_labels inv1 ∧
  label_count inv t l =
    label_count inv1 t l + occurrences l (concat (label_lists t inv2)).
Proof.
  intros Hwf Hperm.
  assert (wf_labels inv1) as Hwf1.
  { unfold wf_labels in *. rewrite Hperm in Hwf.
    by apply Forall_app in Hwf as [? _]. }
  split; [done|]. rewrite !label_count_occurrences by done.
  rewrite <-occurrences_app, <-concat_app, <-label_lists_app.
  apply occurrences_concat_Permutation. unfold label_lists. by rewrite Hperm.
Qed.

(** X8. Sampling never raises a count: after a sampling with a fraction
    between zero and one the inventory is made of records of the inventory
    before, each at most once, and for every label type and label the count
    [log_stats] would hold is at most what it was. *)
Theorem sample_counts_decrease (s : state) (inv : odict record) (p_keep : Q) :
  data_inventory s = Some inv →
  wf inv →
  wf_labels inv →
  (0 <= p_keep)%Q →
  (p_keep <= 1)%Q →
  ∃ s' inv',
    randomly_remove_samples_to_percent p_keep s = (Return tt, s') ∧
    data_inventory s' = Some inv' ∧
    inv' ⊆+ inv ∧
    ∀ t l, label_count inv' t l ≤ label_count inv t l.
Proof.
  intros Hinv Hwf Hlabels Hp0 Hp1.
  destruct (py_int_floor (length (keys inv)) p_keep Hp0 Hp1) as [_ Hk].
  rewrite (sample_run s inv p_keep Hinv Hwf) by (done || by apply Qle_bool_iff).
  set (choices := draw _ _ _).
  assert (omap (λ id, pair id <$> get inv id) choices ⊆+ inv) as Hsub.
  { apply sample_submseteq; [done | apply draw_submseteq]. }
  eexists _, _. split_and!; [done..|].
  intros t l. destruct (submseteq_Permutation _ _ Hsub) as [rest Hrest].
  destruct (label_count_Permutation inv _ rest t l Hlabels Hrest) as [_ ->].
  lia.
Qed.

Lemma sample_counts_decrease_witness :
  ∃ s' inv',
    randomly_remove_samples_to_percent (2 # 3)
      (fresh_state (Some three_records)) = (Return tt, s') ∧
    data_inventory s' = Some inv' ∧
    inv' ⊆+ three_records ∧
    ∀ t l, label_count inv' t l ≤ label_count three_records t l.
Proof.
  apply (sample_counts_decrease (fresh_state (Some three_records))
           three_records (2 # 3)).
  - reflexivity.
  - unfold wf. apply (bool_decide_unpack _). by vm_compute.
  - unfold wf_labels, wf. apply (bool_decide_unpack _). by vm_compute.
  - unfold Qle. simpl. lia.
  - unfold Qle. simpl. lia.
Defined.

Lemma pop_Permutation {V} (d : odict V) (k : string) (v : V) :
  get d k = Some v → d ≡ₚ (k, v) :: pop d k.
Proof.
  induction d as [|[k' v'] d IH]; simpl; [done|].
  destruct (decide (k' = k)) as [->|Hne].
  - by intros [= ->].
  - intros Hget. rewrite (IH Hget) at 1. apply Permutation_swap.
Qed.

(** X9. Removing a record lowers the count of every label by the number of
    times the record carries the label under the label type, and lowers no
    other count. *)
Theorem remove_record_counts (s : state) (inv : odict record) (id : string)
    (r : record) :
  data_inventory s = Some inv →
  wf_labels inv →
  get inv id = Some r →
  ∃ s' inv',
    remove_record id s = (Return tt, s') ∧
    data_inventory s' = Some inv' ∧
    ∀ t l, label_count inv t l =
           label_count inv' t l + record_occurrences r t l.
Proof.
  intros Hinv Hlabels Hr. eexists _, _. split_and!.
  { unfold remove_record. unfold_M. by rewrite Hinv. }
  { done. }
  intros t l.
  assert (inv ≡ₚ pop inv id ++ [(id, r)]) as Hperm.
  { rewrite (pop_Permutation inv id r Hr) at 1.
    by rewrite Permutation_cons_append. }
  destruct (label_count_Permutation inv _ _ t l Hlabels Hperm) as [_ ->].
  f_equal. unfold record_occurrences, label_lists. csimpl.
  destruct (get (labels r) t); simpl; by rewrite ?app_nil_r.
Qed.

Lemma remove_record_counts_witness :
  ∃ s' inv',
    remove_record "img_3" (fresh_state (Some three_records)) =
      (Return tt, s') ∧
    data_inventory s' = Some inv' ∧
    ∀ t l, label_count three_records t l =
           label_count inv' t l +
           record_occurrences (Rec [("species", ["cat"; "dog"])] []) t l.
Proof.
  apply (remove_record_counts (fresh_state (Some three_records)) three_records
           "img_3").
  - reflexivity.
  - unfold wf_labels, wf. apply (bool_decide_unpack _). by vm_compute.
  - reflexivity.
Defined.

(** ** More on what [log_stats] logs *)

Lemma get_Some_elem {V} (d : odict V) (k : string) (v : V) :
  get d k = Some v → (k, v) ∈ d.
Proof.
  induction d as [|[k' v'] d IH]; simpl; [done|].
  destruct (decide (k' = k)) as [->|Hne].
  - intros [= ->]. left.
  - intros ?. right. auto.
Qed.

Lemma elem_of_stat_log (st : stats) (e : level * message) :
  e ∈ stat_log st ↔
  (∃ t d l c, (t, d) ∈ label_stats st ∧ (l, c) ∈ d ∧
     e = (INFO, LabelStat t l c (sum_list (values d)))) ∨
  (∃ t n, (t, n) ∈ label_type_stats st ∧ e = (INFO, MultipleLabels t n)).
Proof.
  unfold stat_log, stat_lines.
  rewrite elem_of_app, list_elem_of_bind, list_elem_of_fmap.
  split; (intros [Hl|Hr]; [left|right]).
  - destruct Hl as ([t d] & (lc & -> & Hlc)%list_elem_of_fmap & Hin).
    rewrite sorted_reverse_Permutation in Hlc. destruct lc as [l c].
    by exists t, d, l, c.
  - destruct Hr as ([t n] & -> & Hin). by exists t, n.
  - destruct Hl as (t & d & l & c & Hin & Hlc & ->).
    exists (t, d). split; [|done]. apply list_elem_of_fmap.
    exists (l, c). split; [done|]. by rewrite sorted_reverse_Permutation.
  - destruct Hr as (t & n & Hin & ->). by exists (t, n).
Qed.

(** X10. On every created inventory [log_stats] returns: no total is zero
    where a percentage is computed and no key is missing where it is read.
    It changes nothing but the log, and what it logs is informational. *)
Theorem log_stats_returns (s : state) (inv : odict record) :
  data_inventory s = Some inv →
  ∃ new, log_stats s = (Return tt, add_logging new s) ∧
    Forall (λ e, e.1 = INFO) new.
Proof.
  intros Hinv. exists (stat_log (collect_stats inv)).
  split; [by apply log_stats_run|].
  apply Forall_forall. intros e He. apply elem_of_stat_log in He.
  by destruct He as [(?&?&?&?&_&_&->)|(?&?&_&->)].
Qed.

Lemma log_stats_returns_witness :
  ∃ new, log_stats (fresh_state (Some three_records)) =
           (Return tt, add_logging new (fresh_state (Some three_records))) ∧
    Forall (λ e, e.1 = INFO) new.
Proof.
  exact (log_stats_returns (fresh_state (Some three_records)) three_records
           eq_refl).
Defined.

(** X11. Every statistics line [log_stats] logs for a label type gives a
    label some record carries under the type, with the number of times the
    records carry it, which is at least one and at most the total of the
    line; the total is the number of label values the records carry under
    the type. *)
Theorem log_stats_lines (s : state) (inv : odict record)
    (t l : string) (c tot : nat) :
  data_inventory s = Some inv →
  wf_labels inv →
  ∃ new, log_stats s = (Return tt, add_logging new s) ∧
    ((INFO, LabelStat t l c tot) ∈ new →
     c = occurrences l (concat (label_lists t inv)) ∧
     tot = length (concat (label_lists t inv)) ∧
     1 ≤ c ≤ tot).
Proof.
  intros Hinv Hwf. exists (stat_log (collect_stats inv)).
  split; [by apply log_stats_run|].
  intros [(t' & d & l' & c' & Hd & Hlc & [= -> -> -> ->])|(?&?&_&?)]
    %elem_of_stat_log; [|done].
  apply elem_get in Hd; [|apply collect_stats_wf].
  destruct (label_stats_counts inv t' Hwf) as [Hcounts _].
  rewrite Hd in Hcounts. simpl in Hcounts. subst d.
  rewrite sum_values_counts_of.
  unfold counts_of in Hlc.
  apply list_elem_of_fmap in Hlc as (x & [= -> ->] & Hx).
  apply (proj1 (elem_of_first_seen _ _)) in Hx. split_and!; [done..| |].
  - unfold occurrences.
    destruct (filter _ _) eqn:Hf; [|simpl; lia].
    destruct (filter_nil_not_elem_of _ _ x Hf eq_refl Hx).
  - apply length_filter.
Qed.

Lemma log_stats_lines_witness :
  ∃ new, log_stats (fresh_state (Some three_records)) =
           (Return tt, add_logging new (fresh_state (Some three_records))) ∧
    ((INFO, LabelStat "species" "cat" 2 4) ∈ new →
     2 = occurrences "cat" (concat (label_lists "species" three_records)) ∧
     4 = length (concat (label_lists "species" three_records)) ∧
     1 ≤ 2 ≤ 4).
Proof.
  apply (log_stats_lines (fresh_state (Some three_records)) three_records
           "species" "cat" 2 4).
  - reflexivity.
  - unfold wf_labels, wf. apply (bool_decide_unpack _). by vm_compute.
Defined.

(** X12. [log_stats] logs a line on records with multiple labels for exactly
    the label types some record carries, and the number it gives is the
    number of records whose list for the type has more than one label. *)
Theorem log_stats_multiple_labels (s : state) (inv : odict record)
    (t : string) (n : nat) :
  data_inventory s = Some inv →
  wf_labels inv →
  ∃ new, log_stats s = (Return tt, add_logging new s) ∧
    ((INFO, MultipleLabels t n) ∈ new ↔
     label_lists t inv ≠ [] ∧
     n = length (filter (λ ls, 1 < length ls) (label_lists t inv))).
Proof.
  intros Hinv Hwf. exists (stat_log (collect_stats inv)).
  split; [by apply log_stats_run|].
  destruct (collect_stats_wf inv) as [Hwf_stats Hkeys].
  assert (wf (label_type_stats (collect_stats inv))) as Hwf_types.
  { unfold wf. by rewrite <-Hkeys. }
  destruct (collect_stats_spec inv t) as [_ Hget].
  rewrite lists_of_entries in Hget by done.
  rewrite elem_of_stat_log. split.
  - intros [(?&?&?&?&_&_&?)|(t' & n' & Hin & [= -> ->])]; [done|].
    apply elem_get in Hin; [|done]. rewrite Hin in Hget.
    case_decide; [done|]. by injection Hget as ->.
  - intros [Hne ->]. right. eexists _, _. split; [|done].
    apply get_Some_elem. rewrite Hget. by rewrite decide_False.
Qed.

Lemma log_stats_multiple_labels_witness :
  ∃ new, log_stats (fresh_state (Some three_records)) =
           (Return tt, add_logging new (fresh_state (Some three_records))) ∧
    ((INFO, MultipleLabels "species" 1) ∈ new ↔
     label_lists "species" three_records ≠ [] ∧
     1 = length (filter (λ ls, 1 < length ls)
                   (label_lists "species" three_records))).
Proof.
  apply (log_stats_multiple_labels (fresh_state (Some three_records))
           three_records "species" 1).
  - reflexivity.
  - unfold wf_labels, wf. apply (bool_decide_unpack _). by vm_compute.
Defined.

(** ** More on the image processing configuration *)

Lemma merge_lookup
    (image_processing image_processing_model args : gmap string pyval)
    (k : string) :
  merge_image_processing image_processing image_processing_model args !! k =
  if decide (k ∈ to_overwrite) then
    if is_none (args_item args k)
    then image_processing !! k ∪ image_processing_model !! k
    else Some (args_item args k)
  else image_processing !! k ∪ image_processing_model !! k.
Proof.
  unfold merge_image_processing, dict_unpack, overwrite_parameters.
  rewrite lookup_union, lookup_overwrite.
  destruct (decide (k ∈ to_overwrite)); [destruct (is_none _)|];
    try done.
  by destruct (image_processing_model !! k).
Qed.

(** What [disable_color_augmentation] returns when it returns: only
    [color_augmentation] can differ, and the world is left alone. *)
Lemma disable_color_augmentation_returns {world : Type}
    (image_processing effective : gmap string pyval)
    (s s' : list run_message * world) :
  disable_color_augmentation image_processing s = (Return effective, s') →
  ∃ choice, image_processing !! "image_choice_for_sets" = Some choice ∧
    (if eq_str choice "grayscale_stacking"
     then effective = <["color_augmentation" := PNone]> image_processing ∧
          is_Some (image_processing !! "color_augmentation")
     else effective = image_processing ∧ s' = s) ∧
    s'.2 = s.2.
Proof.
  unfold disable_color_augmentation, getitem, logger_info.
  cbv beta delta [bind ret raise modify].
  destruct (image_processing !! "image_choice_for_sets") as [choice|];
    [|done].
  intros Hrun. exists choice. split; [done|].
  destruct (eq_str choice "grayscale_stacking").
  - destruct (image_processing !! "color_augmentation") as [aug|] eqn:Haug;
      [|done].
    destruct aug; simpl in Hrun; injection Hrun as <- <-; simpl;
      rewrite ?insert_id by done; eauto.
  - by injection Hrun as <- <-.
Qed.

(** X13. When neither [config.yaml], nor the model, nor the command line
    gives [image_choice_for_sets], the configuration step raises a [KeyError]
    and leaves the state as it was. *)
Theorem configure_without_image_choice {world : Type}
    (image_processing image_processing_model args : gmap string pyval)
    (s : list run_message * world) :
  image_processing !! "image_choice_for_sets" = None →
  image_processing_model !! "image_choice_for_sets" = None →
  args !! "image_choice_for_sets" = None →
  configure_image_processing image_processing image_processing_model args s =
    (Raise KeyError, s).
Proof.
  intros Hip Hipm Hargs.
  unfold configure_image_processing, disable_color_augmentation, getitem.
  cbv beta delta [bind ret raise modify].
  rewrite merge_lookup. unfold args_item. rewrite Hargs, Hip, Hipm.
  rewrite decide_True by (by apply (bool_decide_unpack _)). reflexivity.
Qed.

Lemma configure_without_image_choice_witness :
  configure_image_processing (world := unit)
    {["color_augmentation" := PStr "little"]} {["output_width" := PInt 224]}
    ∅ ([], tt) =
  (Raise KeyError, ([], tt)).
Proof.
  apply (configure_without_image_choice (world := unit)); reflexivity.
Defined.

(** X14. When the command line chooses ["grayscale_stacking"] and no layer
    gives [color_augmentation], the configuration step raises a [KeyError]
    in place of disabling the option. *)
Theorem configure_grayscale_without_augmentation {world : Type}
    (image_processing image_processing_model args : gmap string pyval)
    (s : list run_message * world) :
  args !! "image_choice_for_sets" = Some (PStr "grayscale_stacking") →
  image_processing !! "color_augmentation" = None →
  image_processing_model !! "color_augmentation" = None →
  args !! "color_augmentation" = None →
  configure_image_processing image_processing image_processing_model args s =
    (Raise KeyError, s).
Proof.
  intros Hchoice Hip Hipm Hargs.
  unfold configure_image_processing, disable_color_augmentation, getitem.
  cbv beta delta [bind ret raise modify].
  rewrite !merge_lookup. unfold args_item.
  rewrite Hchoice, Hargs, Hip, Hipm.
  rewrite !decide_True by (by apply (bool_decide_unpack _)). reflexivity.
Qed.

Lemma configure_grayscale_without_augmentation_witness :
  configure_image_processing (world := unit)
    {["image_choice_for_sets" := PStr "random"]}
    {["output_width" := PInt 224]}
    {["image_choice_for_sets" := PStr "grayscale_stacking"]} ([], tt) =
  (Raise KeyError, ([], tt)).
Proof.
  apply (configure_grayscale_without_augmentation (world := unit));
    reflexivity.
Defined.

(** X15. Whenever the configuration step returns, the configuration in force
    agrees with the merged one on every option but [color_augmentation], it
    never has ["grayscale_stacking"] together with a [color_augmentation]
    other than [None], and the world was not touched. *)
Theorem configure_returns {world : Type}
    (image_processing image_processing_model args effective
       : gmap string pyval)
    (s s' : list run_message * world) :
  configure_image_processing image_processing image_processing_model args s =
    (Return effective, s') →
  (∀ k, k ≠ "color_augmentation" →
     effective !! k =
     merge_image_processing image_processing image_processing_model args
       !! k) ∧
  (∀ choice, effective !! "image_choice_for_sets" = Some choice →
     eq_str choice "grayscale_stacking" = true →
     effective !! "color_augmentation" = Some PNone) ∧
  s'.2 = s.2.
Proof.
  unfold configure_image_processing.
  intros (choice & Hchoice & Hcase & Hworld)
    %disable_color_augmentation_returns.
  destruct (eq_str choice "grayscale_stacking") eqn:Heq.
  - destruct Hcase as [-> _]. split_and!; [| |done].
    + intros k Hk. by rewrite lookup_insert_ne.
    + intros _ _ _. by rewrite lookup_insert_eq.
  - destruct Hcase as [-> _]. split_and!; [done| |done].
    intros choice' Hchoice' Heq'. congruence.
Qed.

Lemma configure_returns_witness :
  let image_processing : gmap string pyval :=
    {["color_augmentation" := PStr "full_randomized";
      "image_choice_for_sets" := PStr "grayscale_stacking"]} in
  let effective : gmap string pyval :=
    {["color_augmentation" := PNone;
      "image_choice_for_sets" := PStr "grayscale_stacking"]} in
  (∀ k, k ≠ "color_augmentation" →
     effective !! k = merge_image_processing image_processing ∅ ∅ !! k) ∧
  (∀ choice, effective !! "image_choice_for_sets" = Some choice →
     eq_str choice "grayscale_stacking" = true →
     effective !! "color_augmentation" = Some PNone) ∧
  ([DisablingColorAugmentation], tt).2 = ([] : list run_message, tt).2.
Proof.
  intros image_processing effective.
  apply (configure_returns (world := unit) image_processing ∅ ∅ effective
           ([], tt) ([DisablingColorAugmentation], tt)).
  by vm_compute.
Defined.

(** X16. The grayscale rule settles in one pass: run again on the
    configuration it returned, it returns the same configuration and logs
    nothing. *)
Theorem disable_color_augmentation_idempotent {world : Type}
    (image_processing effective : gmap string pyval)
    (s s' : list run_message * world) :
  disable_color_augmentation image_processing s = (Return effective, s') →
  disable_color_augmentation effective s' = (Return effective, s').
Proof.
  intros (choice & Hchoice & Hcase & _)%disable_color_augmentation_returns.
  unfold disable_color_augmentation, getitem, logger_info.
  cbv beta delta [bind ret raise modify].
  destruct (eq_str choice "grayscale_stacking") eqn:Heq.
  - destruct Hcase as [-> _].
    rewrite lookup_insert_ne, Hchoice, Heq by done.
    by rewrite lookup_insert_eq.
  - destruct Hcase as [-> ->]. by rewrite Hchoice, Heq.
Qed.

Lemma disable_color_augmentation_idempotent_witness :
  let effective : gmap string pyval :=
    {["color_augmentation" := PNone;
      "image_choice_for_sets" := PStr "grayscale_stacking"]} in
  disable_color_augmentation (world := unit) effective
    ([DisablingColorAugmentation], tt) =
  (Return effective, ([DisablingColorAugmentation], tt)).
Proof.
  intros effective.
  apply (disable_color_augmentation_idempotent (world := unit)
           {["color_augmentation" := PStr "little";
             "image_choice_for_sets" := PStr "grayscale_stacking"]}
           effective ([], tt)).
  by vm_compute.
Defined.

(** X17. A height and a width given on the command line are the input shape
    of the model, whatever [config.yaml] and the model say. *)
Theorem command_line_sizes_win {world : Type}
    (image_processing image_processing_model args effective
       : gmap string pyval)
    (s s' : list run_message * world) (height width : Z) :
  args !! "output_height" = Some (PInt height) →
  args !! "output_width" = Some (PInt width) →
  configure_image_processing image_processing image_processing_model args s =
    (Return effective, s') →
  input_shape effective s' = (Return (PInt height, PInt width, 3%Z), s').
Proof.
  intros Hh Hw (choice & _ & Hcase & _)%disable_color_augmentation_returns.
  assert (∀ k, k ≠ "color_augmentation" →
            effective !! k =
            merge_image_processing image_processing image_processing_model
              args !! k) as Hframe.
  { intros k Hk. destruct (eq_str choice _), Hcase as [-> _];
      by rewrite ?lookup_insert_ne. }
  unfold input_shape, getitem. cbv beta delta [bind ret raise].
  rewrite !Hframe, !merge_lookup by done. unfold args_item. rewrite Hh, Hw.
  rewrite !decide_True by (by apply (bool_decide_unpack _)). reflexivity.
Qed.

Lemma command_line_sizes_win_witness :
  let effective : gmap string pyval :=
    {["image_choice_for_sets" := PStr "random";
      "output_height" := PInt 100; "output_width" := PInt 150]} in
  input_shape (world := unit) effective ([], tt) =
  (Return (PInt 100, PInt 150, 3%Z), ([], tt)).
Proof.
  intros effective.
  apply (command_line_sizes_win (world := unit)
           {["image_choice_for_sets" := PStr "random";
             "output_width" := PInt 224]}
           {["output_height" := PInt 224; "output_width" := PInt 299]}
           {["output_height" := PInt 100; "output_width" := PInt 150]}
           effective ([], tt) ([], tt)); by vm_compute.
Defined.

(** ** The classes of each label *)

Lemma size_list_to_set_length (l : list Z) :
  size (list_to_set (C := gset Z) l) ≤ length l ∧
  (size (list_to_set (C := gset Z) l) = length l ↔ NoDup l).
Proof.
  induction l as [|x l [IHle IHeq]]; simpl.
  - split; [done|]. split; [constructor | done].
  - rewrite NoDup_cons. destruct (decide (x ∈ l)) as [Hx|Hx].
    + assert ({[x]} ∪ list_to_set l = list_to_set (C := gset Z) l) as ->.
      { apply subseteq_union_1_L, singleton_subseteq_l.
        by apply elem_of_list_to_set. }
      split; [lia|]. split; [lia | by intros [? _]].
    + rewrite size_union, size_singleton
        by (apply disjoint_singleton_l; by rewrite elem_of_list_to_set).
      split; [lia|]. rewrite <-IHeq. split; [intros; split; [done|lia] |].
      intros [_ ?]. lia.
Qed.

Lemma NoDup_fmap_elem_inj {A B} (f : A → B) (l : list A) (x y : A) :
  NoDup (f <$> l) → x ∈ l → y ∈ l → f x = f y → x = y.
Proof.
  induction l as [|z l IH]; csimpl; [by intros _ ?%elem_of_nil|].
  rewrite NoDup_cons, !elem_of_cons.
  intros [Hz Hl] [->|Hx] [->|Hy] Hf; [done| | |by apply IH].
  - destruct Hz. rewrite Hf. by apply list_elem_of_fmap_2.
  - destruct Hz. rewrite <-Hf. by apply list_elem_of_fmap_2.
Qed.

(** X18. The number of classes of a label is the number of different codes:
    at most the number of class names, and that many exactly when no two
    class names share a code. *)
Theorem n_classes_bounds (codes : gmap string Z) :
  n_classes codes ≤ size codes ∧
  (n_classes codes = size codes ↔
   ∀ c1 c2 z, codes !! c1 = Some z → codes !! c2 = Some z → c1 = c2).
Proof.
  unfold n_classes.
  destruct (size_list_to_set_length (map_to_list codes).*2) as [Hle Heq].
  rewrite length_fmap, length_map_to_list in Hle, Heq.
  split; [done|]. rewrite Heq. split.
  - intros Hnd c1 c2 z H1 H2.
    apply elem_of_map_to_list in H1, H2.
    by injection (NoDup_fmap_elem_inj snd _ (c1, z) (c2, z) Hnd H1 H2 eq_refl).
  - intros Hinj. apply NoDup_fmap_2_strong; [|apply NoDup_map_to_list].
    intros [c1 z1] [c2 z2] H1 H2. simpl. intros <-.
    apply elem_of_map_to_list in H1, H2. f_equal. by eapply Hinj.
Qed.

Lemma label_prefix_inj (x y : string) :
  "label/" +:+ x = "label/" +:+ y → x = y.
Proof. apply (inj (String.append "label/")). Qed.

Section classes.
Context {world : Type} (class_mapping : gmap string (gmap string Z)).
Implicit Types (s : list run_message * world) (l : list string).

Lemma n_classes_per_label_dict_run l (d0 : gmap string nat) s :
  Forall (λ o, is_Some (class_mapping !! o)) l →
  ∃ d,
    for_each (zip l (output_labels_clean l))
      (λ d oc,
         match class_mapping !! oc.1 with
         | Some codes => ret (<[oc.2 := n_classes codes]> d)
         | None => raise KeyError
         end)
      d0 s = (Return d, s) ∧
    (∀ o, o ∈ l →
       d !! ("label/" +:+ o) = Some (n_classes (class_mapping !!! o))) ∧
    (∀ k, k ∉ output_labels_clean l → d !! k = d0 !! k).
Proof.
  intros Hl. revert d0.
  induction Hl as [|o l [codes Ho] _ IH]; intros d0; csimpl.
  - exists d0. split_and!; [done | by intros ? ?%elem_of_nil | done].
  - unfold bind, ret. simpl. rewrite Ho.
    destruct (IH (<["label/" +:+ o := n_classes codes]> d0))
      as (d & Hrun & Hin & Hout).
    exists d. split; [exact Hrun|]. split.
    + intros o' [->|Ho']%elem_of_cons; [|by apply Hin].
      destruct (decide (o ∈ l)) as [Hol|Hol]; [by apply Hin|].
      rewrite Hout.
      * rewrite lookup_insert_eq. by rewrite lookup_total_alt, Ho.
      * intros (o' & Heq%label_prefix_inj & Ho')%list_elem_of_fmap.
        by subst.
    + intros k [Hk Hkl]%not_elem_of_cons.
      rewrite Hout by done. by rewrite lookup_insert_ne.
Qed.

Lemma n_classes_per_label_list_run l (d : gmap string nat) (acc : list nat)
    s :
  (∀ o, o ∈ l →
     d !! ("label/" +:+ o) = Some (n_classes (class_mapping !!! o))) →
  for_each (output_labels_clean l)
    (λ acc x,
       match d !! x with
       | Some n => ret (acc ++ [n])
       | None => raise KeyError
       end)
    acc s =
  (Return (acc ++ ((λ o, n_classes (class_mapping !!! o)) <$> l)), s).
Proof.
  revert acc. induction l as [|o l IH]; intros acc Hd; csimpl.
  - by rewrite app_nil_r.
  - unfold bind, ret. rewrite Hd by left.
    rewrite IH by (intros; apply Hd; by right).
    by rewrite <-app_assoc.
Qed.

Lemma n_classes_per_label_dict_missing l (d0 : gmap string nat) s :
  Exists (λ o, class_mapping !! o = None) l →
  for_each (zip l (output_labels_clean l))
    (λ d oc,
       match class_mapping !! oc.1 with
       | Some codes => ret (<[oc.2 := n_classes codes]> d)
       | None => raise KeyError
       end)
    d0 s = (Raise KeyError, s).
Proof.
  revert d0. induction l as [|o l IH]; intros d0 Hex; csimpl.
  - by apply Exists_nil in Hex.
  - unfold bind, ret, raise. simpl.
    destruct (class_mapping !! o) as [codes|] eqn:Ho; [|done].
    apply IH. apply Exists_cons in Hex as [Hex|Hex]; [congruence | done].
Qed.
End classes.

(** X19. When the class mapping has every label, the numbers of classes come
    out in the order of the labels, one for each label, and each is the
    number of different codes of the label, also when a label is given
    twice. *)
Theorem n_classes_per_label_spec {world : Type}
    (class_mapping : gmap string (gmap string Z))
    (output_labels : list string) (s : list run_message * world) :
  Forall (λ o, is_Some (class_mapping !! o)) output_labels →
  n_classes_per_label class_mapping output_labels s =
    (Return ((λ o, n_classes (class_mapping !!! o)) <$> output_labels), s).
Proof.
  intros Hl. unfold n_classes_per_label. unfold bind at 1.
  destruct (n_classes_per_label_dict_run class_mapping output_labels ∅ s Hl)
    as (d & Hrun & Hin & _).
  unfold n_classes_per_label_dict. rewrite Hrun.
  by rewrite (n_classes_per_label_list_run class_mapping).
Qed.

Lemma n_classes_per_label_spec_witness :
  n_classes_per_label (world := unit)
    {["species" := {["cat" := 0%Z; "dog" := 1%Z; "wolf" := 1%Z]};
      "count" := {["1" := 0%Z; "2" := 1%Z]}]}
    ["species"; "count"; "species"] ([], tt) =
  (Return [2; 2; 2], ([], tt)).
Proof.
  etrans.
  - apply (n_classes_per_label_spec (world := unit)
             {["species" := {["cat" := 0%Z; "dog" := 1%Z; "wolf" := 1%Z]};
               "count" := {["1" := 0%Z; "2" := 1%Z]}]}
             ["species"; "count"; "species"] ([], tt)).
    repeat constructor; by eexists.
  - by vm_compute.
Defined.

(** X20. A label that the class mapping does not have ends the run with a
    [KeyError], in the state it was in. *)
Theorem n_classes_per_label_missing {world : Type}
    (class_mapping : gmap string (gmap string Z))
    (output_labels : list string) (s : list run_message * world) :
  Exists (λ o, class_mapping !! o = None) output_labels →
  n_classes_per_label class_mapping output_labels s = (Raise KeyError, s).
Proof.
  intros Hex. unfold n_classes_per_label, n_classes_per_label_dict.
  unfold bind at 1.
  by rewrite (n_classes_per_label_dict_missing class_mapping).
Qed.

Lemma n_classes_per_label_missing_witness :
  n_classes_per_label (world := unit)
    {["species" := {["cat" := 0%Z; "dog" := 1%Z]}]}
    ["species"; "count"] ([], tt) =
  (Raise KeyError, ([], tt)).
Proof.
  apply (n_classes_per_label_missing (world := unit)).
  apply Exists_cons_tl, Exists_cons_hd. reflexivity.
Defined.

(** ** More on the best model and the test predictions *)

(** X21. An empty string as test path skips the prediction: the run ends
    as the copy of the best model ends, whatever the predictor would do. *)
Theorem empty_test_path_skips {world : Type}
    (copy_models_and_config_files :
       gmap string pyval → M (list run_message * world) unit)
    (predict_test_data :
       gmap string pyval → M (list run_message * world) string)
    (args : gmap string pyval) (s : list run_message * world) :
  args !! "test_tfr_path" = Some (PStr "") →
  save_best_model_and_predict copy_models_and_config_files predict_test_data
    args s =
  copy_models_and_config_files args (s.1 ++ [SavingBestModel], s.2).
Proof.
  intros Hpath. unfold save_best_model_and_predict, logger_info, args_item.
  cbv beta delta [bind ret raise modify]. rewrite Hpath. simpl.
  by destruct (copy_models_and_config_files _ _) as [[[]|e] s'].
Qed.

Lemma empty_test_path_skips_witness :
  save_best_model_and_predict (world := unit) (λ _, ret tt)
    (λ _, raise IOError) {["test_tfr_path" := PStr ""]} ([], tt) =
  (Return tt, ([SavingBestModel], tt)).
Proof.
  exact (empty_test_path_skips (world := unit) (λ _, ret tt)
           (λ _, raise IOError) {["test_tfr_path" := PStr ""]} ([], tt)
           eq_refl).
Defined.

(** X22. With a test path the prediction starts only after the copy of the
    best model has returned, in the state the copy left; a failure of the
    prediction ends the run with that exception, and a prediction that
    returns is logged with the path of its export. *)
Theorem predict_after_copy {world : Type}
    (copy_models_and_config_files :
       gmap string pyval → M (list run_message * world) unit)
    (predict_test_data :
       gmap string pyval → M (list run_message * world) string)
    (args : gmap string pyval) (s s1 : list run_message * world)
    (path : string) :
  args !! "test_tfr_path" = Some (PStr path) →
  path ≠ "" →
  copy_models_and_config_files args (s.1 ++ [SavingBestModel], s.2) =
    (Return tt, s1) →
  save_best_model_and_predict copy_models_and_config_files predict_test_data
    args s =
  match predict_test_data args (s1.1 ++ [StartingToPredict], s1.2) with
  | (Return pred_output_json, s2) =>
      (Return tt, (s2.1 ++ [FinishedPredicting pred_output_json], s2.2))
  | (Raise e, s2) => (Raise e, s2)
  end.
Proof.
  intros Hpath Hne Hcopy.
  unfold save_best_model_and_predict, logger_info, args_item.
  cbv beta delta [bind ret raise modify]. rewrite Hpath. simpl.
  rewrite Hcopy. destruct path as [|a path]; [done|]. simpl.
  by destruct (predict_test_data _ _) as [[j|e] s2].
Qed.

Lemma predict_after_copy_witness :
  save_best_model_and_predict (world := unit) (λ _, ret tt)
    (λ _, raise IOError) {["test_tfr_path" := PStr "tfr/"]} ([], tt) =
  (Raise IOError, ([SavingBestModel; StartingToPredict], tt)).
Proof.
  apply (predict_after_copy (world := unit) (λ _, ret tt)
           (λ _, raise IOError) {["test_tfr_path" := PStr "tfr/"]} ([], tt)
           ([SavingBestModel], tt) "tfr/"); done.
Defined.
